(** * NeTV2 SoC: resource maps and system composition

    A shallow embedding of [netv2.py]: the register-window allocator
    [csr_map_update], the class-level resource maps of [NeTV2SoC], the
    constructor [NeTV2SoC.__init__] as a program over the calls it makes to
    the migen / LiteX framework, [generate_software_header] and [main]; and
    of the dependency script [litex_setup.py]. *)

From stdpp Require Import gmap strings list fin_maps sorting.
From Stdlib Require Import ZArith Lia.

Local Open Scope string_scope.
Local Open Scope Z_scope.

(** ** Python exceptions *)

(** The exceptions the modelled code can raise.  The first four are
    Python's; [DuplicateNameError] and [OverlapError] are the failures the
    specification names for the framework's registry and memory-region
    bookkeeping, and [FrameworkError] stands for any other exception raised
    inside a framework call. *)
Inductive exn : Type :=
  | NameError (name : string)
  | AssertionError
  | ValueError
  | KeyError (key : string)
  | DuplicateNameError (name : string)
  | OverlapError (name : string)
  | FrameworkError (what : string).

Global Instance exn_eq_dec : EqDecision exn.
Proof. solve_decision. Defined.

(** ** Python dictionaries with string keys and integer values *)

Module Dict.

(** [enumerate(l, start=s)] as the list of the pairs it yields. *)
Fixpoint enumerate {A : Type} (l : list A) (start : Z) : list (Z * A) :=
  match l with
  | [] => []
  | x :: l' => (start, x) :: enumerate l' (start + 1)
  end.

(** Writing the pairs [kvs] into [d] one after the other, left to right: a
    later pair with the same key replaces an earlier one. *)
Definition insert_pairs (d : gmap string Z) (kvs : list (string * Z)) : gmap string Z :=
  foldl (fun d kv => <[kv.1 := kv.2]> d) d kvs.

(** [dict(pairs)] *)
Definition of_pairs (kvs : list (string * Z)) : gmap string Z := insert_pairs ∅ kvs.

(** [d.update(other)]: every entry of [other] is written into [d],
    replacing the entry of [d] with the same key. *)
Definition update (d other : gmap string Z) : gmap string Z := other ∪ d.

(** [d.values()] *)
Definition values (d : gmap string Z) : list Z := (map_to_list d).*2.

(** [max(iterable)]: raises [ValueError] on an empty iterable. *)
Definition max (vs : list Z) : exn + Z :=
  match vs with
  | [] => inl ValueError
  | v :: vs' => inr (foldr Z.max v vs')
  end.

End Dict.

(** ** The register-window allocator *)

(** [[
def csr_map_update(csr_map, csr_peripherals):
    csr_map.update(dict((n, v)
        for v, n in enumerate(csr_peripherals, start=max(csr_map.values()) + 1)))
]]
    The Python function mutates [csr_map] in place; the embedding returns the
    dictionary as it is after the call, or the exception raised. *)
Definition csr_map_update (csr_map : gmap string Z) (csr_peripherals : list string)
  : exn + gmap string Z :=
  match Dict.max (Dict.values csr_map) with
  | inl e => inl e
  | inr m =>
      inr (Dict.update csr_map
             (Dict.of_pairs
                (map (fun vn : Z * string => (vn.2, vn.1))
                     (Dict.enumerate csr_peripherals (m + 1)))))
  end.

(** No two names of a map hold the same ordinal (or address). *)
Definition collision_free (d : gmap string Z) : Prop := NoDup (Dict.values d).

Global Instance collision_free_dec d : Decision (collision_free d).
Proof. unfold collision_free. apply _. Defined.

(** ** Class-level resource maps of [NeTV2SoC] *)

Definition csr_peripherals : list string :=
  [ "crg"; "dna"; "xadc"; "flash"; "icap";
    "ddrphy";
    "ethphy"; "ethmac";
    "pcie_phy"; "pcie_dma0"; "pcie_dma1"; "pcie_msi";
    "hdmi_out0"; "hdmi_in0"; "hdmi_in0_freq"; "hdmi_in0_edid_mem" ].

(** The three maps of the class after its body has run. *)
Record class_maps : Type := ClassMaps {
  csr_map : gmap string Z;
  interrupt_map : gmap string Z;
  mem_map : gmap string Z
}.

Section ClassBody.

(** The maps inherited from the parent class [SoCSDRAM], which belongs to
    LiteX and is not part of this repository. *)
Variables SoCSDRAM_csr_map SoCSDRAM_interrupt_map SoCSDRAM_mem_map : gmap string Z.

(** [[
  interrupt_map = { "ethmac": 3, }
  interrupt_map.update(SoCSDRAM.interrupt_map)
]] *)
Definition NeTV2SoC_interrupt_map : gmap string Z :=
  Dict.update {[ "ethmac" := 3 ]} SoCSDRAM_interrupt_map.

(** [[
  mem_map = { "ethmac": 0x30000000, }
  mem_map.update(SoCSDRAM.mem_map)
]] *)
Definition NeTV2SoC_mem_map : gmap string Z :=
  Dict.update {[ "ethmac" := 0x30000000 ]} SoCSDRAM_mem_map.

(** The class body, executed once when the module is imported. *)
Definition NeTV2SoC_class_body : exn + class_maps :=
  match csr_map_update SoCSDRAM_csr_map csr_peripherals with
  | inl e => inl e
  | inr m => inr (ClassMaps m NeTV2SoC_interrupt_map NeTV2SoC_mem_map)
  end.

End ClassBody.

(** ** Statements of [__init__]: state, exceptions and framework calls *)

(** Everything [NeTV2SoC.__init__], [CRG.__init__] and [main] do is a call
    into migen or LiteX.  A call is recorded with the arguments that matter
    for the resource bookkeeping; what it does to the system under
    construction is decided by the framework. *)
Inductive call : Type :=
  | SoCSDRAM_init (integrated_main_ram_size : Z)
  | construct (cls : string)
  | submodules_set (name : string)
  | clock_domain (name : string)
  | platform_request (name : string) (number : option Z)
  | lookup_request (name : string) (number : Z)
  | register_clkin (freq_hz : Z)
  | create_clkout (cd : string) (freq_hz : Z)
  | register_sdram
  | get_port (mode : string)
  | add_wb_slave (address : Z) (bus : string)
  | add_wb_master (bus : string)
  | add_memory_region (name : string) (origin length : Z)
  | attr_add_keep (clk : string)
  | add_false_path_constraints (clk_a clk_b : string)
  | add_period_constraint (clk : string) (freq_hz : Z)
  | comb (stmt : string)
  | sync (stmt : string)
  | msi_irq_eq (i : Z) (source : string)
  | add_constant (name : string) (value : Z)
  | Builder_build (compile_gateware : bool)
  | write_to_file (path text : string).

Global Instance call_eq_dec : EqDecision call.
Proof. solve_decision. Defined.

(** The framework: how a call acts on the state of the system under
    construction (or which exception it raises), the two attributes
    [generate_software_header] reads, and the renderer [get_csr_header]. *)
Class Framework (S : Type) : Type := {
  regions : Type;
  consts : Type;
  perform : call → S → exn + S;
  csr_regions : S → regions;
  constants : S → consts;
  get_csr_header : regions → consts → bool → string
}.

(** A computation either raises or returns, and leaves a state behind in
    both cases: what was built before an exception stays built. *)
Definition M (S A : Type) : Type := S → (exn + A) * S.

Global Instance M_ret {S} : MRet (M S) := λ A x s, (inr x, s).
Global Instance M_bind {S} : MBind (M S) := λ A B f m s,
  match m s with
  | (inl e, s') => (inl e, s')
  | (inr x, s') => f x s'
  end.

Definition raise {S A} (e : exn) : M S A := λ s, (inl e, s).

Definition do {S} {F : Framework S} (c : call) : M S unit := λ s,
  match perform c s with
  | inl e => (inl e, s)
  | inr s' => (inr (), s')
  end.

(** [if b: body] *)
Definition when {S} (b : bool) (body : M S unit) : M S unit :=
  if b then body else mret ().

(** [for x in l: body(x)] *)
Fixpoint for_each {S A} (l : list A) (body : A → M S unit) : M S unit :=
  match l with
  | [] => mret ()
  | x :: l' => body x ;; for_each l' body
  end.

(** [a and b]: the right operand is evaluated only when the left one is true. *)
Definition py_and {S} (a : bool) (b : M S bool) : M S bool :=
  if a then b else mret false.

(** [assert b] *)
Definition assert {S} (b : bool) : M S unit :=
  if b then mret () else raise AssertionError.

(** [sorted(d.items())] for a dictionary with string keys.  The keys of a
    dictionary are pairwise distinct, so the comparison of two items is
    decided by their keys; strings compare by code point. *)
Fixpoint sorted_insert {V} (x : string * V) (l : list (string * V)) : list (string * V) :=
  match l with
  | [] => [x]
  | y :: l' => if String.leb x.1 y.1 then x :: y :: l' else y :: sorted_insert x l'
  end.

Definition sorted {V} (items : list (string * V)) : list (string * V) :=
  foldr sorted_insert [] items.

(** The order [sorted] puts the items in: by key. *)
Definition key_le {V} (x y : string * V) : Prop := String.le x.1 y.1.

(** Constructor arguments of [NeTV2SoC] after [platform]. *)
Record args : Type := Args {
  with_sdram : bool;
  with_ethernet : bool;
  with_etherbone : bool;
  with_pcie : bool;
  with_hdmi_in0 : bool;
  with_hdmi_out0 : bool
}.

Definition default_args : args :=
  {| with_sdram := true; with_ethernet := false; with_etherbone := true;
     with_pcie := false; with_hdmi_in0 := true; with_hdmi_out0 := true |}.

Section SoC.

Context {S : Type} {F : Framework S}.

(** The names the module binds at top level besides its own definitions
    come from star imports of migen and LiteX; [module_globals] gives the
    value of a free name of [__init__], if it is bound at all. *)
Variable module_globals : string → option bool.

(** [self.mem_map] and [self.shadow_base]. *)
Variable self_mem_map : gmap string Z.
Variable shadow_base : Z.

(** Reading a name that is neither a local nor an argument. *)
Definition global (name : string) : M S bool :=
  match module_globals name with
  | Some b => mret b
  | None => raise (NameError name)
  end.

(** [self.mem_map[key]] *)
Definition mem_map_get (key : string) : M S Z :=
  match self_mem_map !! key with
  | Some a => mret a
  | None => raise (KeyError key)
  end.

(** [CRG.__init__(self, platform, sys_clk_freq)] *)
Definition CRG_init (sys_clk_freq : Z) : M S unit :=
  do (construct "CSR") ;;
  do (clock_domain "sys") ;;
  do (clock_domain "sys4x") ;;
  do (clock_domain "sys4x_dqs") ;;
  do (clock_domain "clk200") ;;
  do (clock_domain "clk100") ;;
  do (clock_domain "eth") ;;
  do (platform_request "clk50" None) ;;
  do (add_period_constraint "clk50" 50000000) ;;
  do (sync "timeline(reset.re, [(1024, [soft_reset.eq(1)])])") ;;
  do (construct "S7PLL") ;;
  do (submodules_set "pll") ;;
  do (register_clkin 50000000) ;;
  do (create_clkout "sys" sys_clk_freq) ;;
  do (create_clkout "sys4x" (4 * sys_clk_freq)) ;;
  do (create_clkout "sys4x_dqs" (4 * sys_clk_freq)) ;;
  do (create_clkout "clk200" 200000000) ;;
  do (create_clkout "clk100" 100000000) ;;
  do (create_clkout "eth" 50000000) ;;
  do (construct "S7IDELAYCTRL") ;;
  do (submodules_set "idelayctrl").

(** The [# ethernet] block. *)
Definition ethernet_block : M S unit :=
  do (platform_request "eth_clocks" None) ;;
  do (platform_request "eth" None) ;;
  do (construct "LiteEthPHYRMII") ;;
  do (submodules_set "ethphy") ;;
  do (construct "LiteEthMAC") ;;
  do (submodules_set "ethmac") ;;
  a ← mem_map_get "ethmac" ;
  do (add_wb_slave a "ethmac.bus") ;;
  a ← mem_map_get "ethmac" ;
  do (add_memory_region "ethmac" (Z.lor a shadow_base) 0x2000) ;;
  do (attr_add_keep "eth") ;;
  do (add_false_path_constraints "sys" "eth").

(** The [# etherbone] block. *)
Definition etherbone_block (sys_clk_freq : Z) : M S unit :=
  do (platform_request "eth_clocks" None) ;;
  do (platform_request "eth" None) ;;
  do (construct "LiteEthPHYRMII") ;;
  do (submodules_set "ethphy") ;;
  do (construct "LiteEthUDPIPCore") ;;
  do (submodules_set "ethcore") ;;
  do (construct "LiteEthEtherbone") ;;
  do (submodules_set "etherbone") ;;
  do (add_wb_master "etherbone.wishbone.bus") ;;
  do (attr_add_keep "eth") ;;
  do (add_false_path_constraints "sys" "eth").

(** [self.interrupts], as the items of the dictionary literal in the order
    they are written. *)
Definition pcie_interrupts : list (string * string) :=
  [ ("PCIE_DMA0_WRITER", "pcie_dma0.writer.irq");
    ("PCIE_DMA0_READER", "pcie_dma0.reader.irq") ].

(** [[
    for i, (k, v) in enumerate(sorted(self.interrupts.items())):
        self.comb += self.pcie_msi.irqs[i].eq(v)
        self.add_constant(k + "_INTERRUPT", i)
]]
    for a dictionary whose [items()] come in the order [items]. *)
Definition pcie_msi_loop (items : list (string * string)) : M S unit :=
  for_each (Dict.enumerate (sorted items) 0) (λ ikv,
    do (msi_irq_eq ikv.1 ikv.2.2) ;;
    do (add_constant (ikv.2.1 ++ "_INTERRUPT") ikv.1)).

(** The [# pcie] block, for a given iteration order of [self.interrupts]. *)
Definition pcie_block_with (items : list (string * string)) : M S unit :=
  do (platform_request "pcie_x2" None) ;;
  do (construct "S7PCIEPHY") ;;
  do (submodules_set "pcie_phy") ;;
  do (add_false_path_constraints "sys" "pcie") ;;
  do (construct "LitePCIeEndpoint") ;;
  do (submodules_set "pcie_endpoint") ;;
  do (construct "LitePCIeWishboneBridge") ;;
  do (submodules_set "pcie_bridge") ;;
  do (add_wb_master "pcie_bridge.wishbone") ;;
  do (construct "LitePCIeDMA") ;;
  do (submodules_set "pcie_dma0") ;;
  do (construct "LitePCIeMSI") ;;
  do (submodules_set "pcie_msi") ;;
  do (comb "pcie_msi.source.connect(pcie_phy.msi)") ;;
  pcie_msi_loop items.

Definition pcie_block : M S unit := pcie_block_with pcie_interrupts.

(** The [# hdmi in <n>] block. *)
Definition hdmi_in_block (n : Z) (name : string) (sys_clk_freq : Z) : M S unit :=
  do (platform_request "hdmi_in" (Some n)) ;;
  do (construct "FreqMeter") ;;
  do (submodules_set (name ++ "_freq")) ;;
  do (get_port "write") ;;
  do (construct "HDMIIn") ;;
  do (submodules_set name) ;;
  do (comb (name ++ "_freq.clk.eq(" ++ name ++ ".clocking.cd_pix.clk)")) ;;
  for_each [name ++ "_pix"; name ++ "_pix1p25x"; name ++ "_pix5x"]
    (λ clk, do (add_false_path_constraints "sys" clk)) ;;
  do (lookup_request "hdmi_in" n) ;;
  do (add_period_constraint (name ++ ".clk_p") 148500000).

(** The [# hdmi out <n>] block. *)
Definition hdmi_out_block (n : Z) (name : string) : M S unit :=
  do (get_port "read") ;;
  do (platform_request "hdmi_out" (Some n)) ;;
  do (construct "VideoOut") ;;
  do (submodules_set name) ;;
  for_each [name ++ "_pix"; name ++ "_pix5x"]
    (λ clk, do (add_false_path_constraints "sys" clk)).

(** [NeTV2SoC.__init__(self, platform, ...)], for a given iteration order
    of the dictionary [self.interrupts]. *)
Definition NeTV2SoC_init_with (items : list (string * string)) (a : args) : M S unit :=
  c ← py_and (with_pcie a) (global "with_interboard_communication") ;
  assert (negb c) ;;
  let sys_clk_freq := 100000000 in
  do (SoCSDRAM_init (if negb (with_sdram a) then 0x8000 else 0)) ;;
  (* crg *)
  CRG_init sys_clk_freq ;;
  do (submodules_set "crg") ;;
  (* dna *)
  do (construct "DNA") ;;
  do (submodules_set "dna") ;;
  (* xadc *)
  do (construct "XADC") ;;
  do (submodules_set "xadc") ;;
  (* icap *)
  do (construct "ICAP") ;;
  do (submodules_set "icap") ;;
  (* flash *)
  do (platform_request "flash" None) ;;
  do (construct "Flash") ;;
  do (submodules_set "flash") ;;
  (* sdram *)
  when (with_sdram a) (
    do (platform_request "ddram" None) ;;
    do (construct "A7DDRPHY") ;;
    do (submodules_set "ddrphy") ;;
    do (construct "MT41J128M16") ;;
    do (construct "ControllerSettings") ;;
    do register_sdram) ;;
  when (with_ethernet a) ethernet_block ;;
  when (with_etherbone a) (etherbone_block sys_clk_freq) ;;
  when (with_pcie a) (pcie_block_with items) ;;
  when (with_hdmi_in0 a) (hdmi_in_block 0 "hdmi_in0" sys_clk_freq) ;;
  when (with_hdmi_out0 a) (hdmi_out_block 0 "hdmi_out0") ;;
  (* hdmi in 1 *)
  b ← global "with_hdmi_in1" ;
  when b (hdmi_in_block 1 "hdmi_in1" sys_clk_freq) ;;
  (* hdmi out 1 *)
  b ← global "with_hdmi_out1" ;
  when b (hdmi_out_block 1 "hdmi_out1") ;;
  (* led blinking (sys) *)
  do (sync "sys_counter.eq(sys_counter + 1)") ;;
  do (platform_request "user_led" (Some 0)) ;;
  do (comb "user_led0.eq(sys_counter[26])") ;;
  (* led blinking (pcie) *)
  when (with_pcie a) (
    do (sync "pcie_counter.eq(pcie_counter + 1)") ;;
    do (platform_request "user_led" (Some 1)) ;;
    do (comb "user_led1.eq(pcie_counter[26])")).

Definition NeTV2SoC_init : args → M S unit := NeTV2SoC_init_with pcie_interrupts.

(** [NeTV2MVPSoC.__init__(self, platform)] *)
Definition NeTV2MVPSoC_init : M S unit :=
  NeTV2SoC_init
    {| with_sdram := with_sdram default_args;
       with_ethernet := false;
       with_etherbone := with_etherbone default_args;
       with_pcie := with_pcie default_args;
       with_hdmi_in0 := with_hdmi_in0 default_args;
       with_hdmi_out0 := with_hdmi_out0 default_args |}.

(** The text [generate_software_header] renders for a system in state [s]. *)
Definition csr_header (s : S) : string :=
  get_csr_header (csr_regions s) (constants s) false.

(** [NeTV2SoC.generate_software_header(self)] *)
Definition generate_software_header : M S unit := λ s,
  do (write_to_file "software/pcie/kernel/csr.h" (csr_header s)) s.

(** [main()], with [argv] standing for [sys.argv[1:]]. *)
Definition main (argv : list string) : M S unit :=
  do (construct "netv2.Platform") ;;
  (if bool_decide ("mvp" ∈ argv) then NeTV2MVPSoC_init else NeTV2SoC_init default_args) ;;
  let compile_gateware := negb (bool_decide ("no-compile" ∈ argv)) in
  do (construct "Builder") ;;
  do (Builder_build compile_gateware) ;;
  generate_software_header.

End SoC.

(** The module as it is written binds none of the free names of
    [__init__]. *)
Definition netv2_globals : string → option bool := λ _, None.


(** ** The class statement and the constructor call *)


(** ** What a call is about *)

(** A false-path declaration between the system clock and another clock;
    every other call qualifies. *)
Definition crossing_from_sys (c : call) : Prop :=
  match c with
  | add_false_path_constraints clk_a clk_b => clk_a = "sys" ∧ clk_b ≠ "sys"
  | _ => True
  end.

(** A memory region named "ethmac", 0x2000 long, whose origin has every bit
    of [shadow_base] set; every call that registers no region qualifies. *)
Definition region_is_ethmac (shadow_base : Z) (c : call) : Prop :=
  match c with
  | add_memory_region name origin length =>
      name = "ethmac" ∧ length = 0x2000 ∧ Z.land origin shadow_base = shadow_base
  | _ => True
  end.

Definition is_memory_region (c : call) : bool :=
  match c with add_memory_region _ _ _ => true | _ => false end.

(** The calls by which the [# pcie] block makes the PCIe peripherals part of
    the system: their registration, the wiring of an MSI line and the
    definition of an interrupt constant. *)
Definition pcie_effect (c : call) : bool :=
  match c with
  | submodules_set name =>
      bool_decide (name ∈ ["pcie_phy"; "pcie_endpoint"; "pcie_bridge"; "pcie_dma0"; "pcie_msi"])
  | msi_irq_eq _ _ => true
  | add_constant _ _ => true
  | _ => false
  end.

(** The build and the writing of a file. *)
Definition is_build_or_write (c : call) : bool :=
  match c with
  | Builder_build _ => true
  | write_to_file _ _ => true
  | _ => false
  end.

(** The registration of one of the names [names] as a submodule. *)
Definition registers_one_of (names : list string) (c : call) : bool :=
  match c with
  | submodules_set name => bool_decide (name ∈ names)
  | _ => false
  end.

(** The two calls the MSI loop makes for the interrupt [k] with signal [v]
    at index [i]. *)
Definition msi_calls (ikv : Z * (string * string)) : list call :=
  [msi_irq_eq ikv.1 ikv.2.2; add_constant (ikv.2.1 ++ "_INTERRUPT") ikv.1].

(** ** A framework in which every call succeeds and is logged *)

Module Trace.

Global Instance framework : Framework (list call) := {|
  regions := list call;
  consts := list (string * Z);
  perform c s := inr (s ++ [c])%list;
  csr_regions s := s;
  constants s := omap (λ c, match c with add_constant k v => Some (k, v) | _ => None end) s;
  get_csr_header _ _ _ := ""
|}.

(** Four ways to read the log of a computation: every call it logs
    satisfies [P]; it only adds to the log; it returns, adding to the log;
    it adds the calls [cs] to the log, in this order, possibly with other
    calls before, between and after them. *)
Definition only (P : call → Prop) {A} (m : M (list call) A) : Prop :=
  ∀ s, Forall P s → Forall P (m s).2.

Definition extends {A} (m : M (list call) A) : Prop :=
  ∀ s, ∃ t, (m s).2 = (s ++ t)%list.

Definition returns {A} (m : M (list call) A) : Prop :=
  ∀ s, ∃ x t, m s = (inr x, (s ++ t)%list).

Definition performs (cs : list call) {A} (m : M (list call) A) : Prop :=
  ∀ s, ∃ t, (m s).2 = (s ++ t)%list ∧ cs `sublist_of` t.

End Trace.

(** ** The enabled peripherals of a configuration *)



(** ** Class attributes as shared dictionary objects *)

(** In Python a dictionary is an object, and a class attribute names one.
    [csr_map_update(SoCSDRAM.csr_map, csr_peripherals)] changes the parent
    class's dictionary in place, while [interrupt_map] and [mem_map] are
    bound to new dictionaries.  The class body is modelled here on a store of
    dictionary objects. *)
Module Store.

(** The dictionary objects, by identity. *)
Abbreviation store := (gmap nat (gmap string Z)).

(** The content of the object [o]. *)
Definition content (h : store) (o : nat) : gmap string Z := h !!! o.

(** A dictionary display [{...}]: a new object. *)
Definition new_dict (h : store) (d : gmap string Z) : nat * store :=
  let o := fresh (dom h) in (o, <[o := d]> h).

(** [o.update(other)], in place. *)
Definition update_in_place (h : store) (o other : nat) : store :=
  <[o := Dict.update (content h o) (content h other)]> h.

(** [csr_map_update(o, l)], in place. *)
Definition csr_map_update_in_place (h : store) (o : nat) (l : list string) : exn + store :=
  match csr_map_update (content h o) l with
  | inl e => inl e
  | inr d => inr (<[o := d]> h)
  end.

(** The objects [SoCSDRAM.csr_map], [SoCSDRAM.interrupt_map] and
    [SoCSDRAM.mem_map] evaluate to. *)
Record parent_attrs : Type := {
  csr_map_obj : nat;
  interrupt_map_obj : nat;
  mem_map_obj : nat
}.

(** The dictionaries the class body of [NeTV2SoC] binds in the class's own
    namespace.  [csr_map] is not among them: the body never assigns it, so
    [NeTV2SoC.csr_map] is found in the parent class and evaluates to
    [csr_map_obj]. *)
Record own_attrs : Type := {
  own_interrupt_map : nat;
  own_mem_map : nat
}.

(** The class body of [NeTV2SoC], statement by statement. *)
Definition class_body (P : parent_attrs) (h : store) : exn + (own_attrs * store) :=
  match csr_map_update_in_place h (csr_map_obj P) csr_peripherals with
  | inl e => inl e
  | inr h1 =>
      let (oi, h2) := new_dict h1 {[ "ethmac" := 3 ]} in
      let h3 := update_in_place h2 oi (interrupt_map_obj P) in
      let (om, h4) := new_dict h3 {[ "ethmac" := 0x30000000 ]} in
      let h5 := update_in_place h4 om (mem_map_obj P) in
      inr ({| own_interrupt_map := oi; own_mem_map := om |}, h5)
  end.

(** A parent class whose three attributes name the objects 0, 1 and 2, and
    a store that holds them: a [csr_map] with one entry, an [interrupt_map]
    with one entry and an empty [mem_map]. *)
Definition sample_parent : parent_attrs :=
  {| csr_map_obj := 0; interrupt_map_obj := 1; mem_map_obj := 2 |}.

Definition sample_store : store :=
  {[ 0%nat := {[ "uart" := 2 ]}; 1%nat := {[ "timer0" := 1 ]}; 2%nat := ∅ ]}.

End Store.

(** ** The dependency script [litex_setup.py] *)

Module LitexSetup.

(** The operating system as the script uses it: [print], [os.system], whose
    exit status the script ignores, and [os.chdir], which raises when the
    directory cannot be entered. *)
Class OS (W : Type) : Type := {
  os_print : string → W → W;
  os_system : string → W → W;
  os_chdir : string → W → exn + W
}.

Definition print {W} {O : OS W} (line : string) : M W unit := λ w,
  (inr (), os_print line w).

Definition system {W} {O : OS W} (cmd : string) : M W unit := λ w,
  (inr (), os_system cmd w).

Definition chdir {W} {O : OS W} (path : string) : M W unit := λ w,
  match os_chdir path w with
  | inl e => (inl e, w)
  | inr w' => (inr (), w')
  end.

(** [s.endswith("/")] *)
Fixpoint ends_with_slash (s : string) : bool :=
  match s with
  | EmptyString => false
  | String c EmptyString => String.eqb (String c EmptyString) "/"
  | String _ s' => ends_with_slash s'
  end.

(** [os.path.join(a, b)] on a POSIX system. *)
Definition path_join (a b : string) : string :=
  if String.prefix "/" b then b
  else if String.eqb a "" || ends_with_slash a then a ++ b
  else a ++ "/" ++ b.

(** [OrderedDict(pairs)]: the keys in the order they are first inserted; a
    later pair with a key already present replaces its value in place. *)
Fixpoint od_set {V} (d : list (string * V)) (k : string) (v : V) : list (string * V) :=
  match d with
  | [] => [(k, v)]
  | (k', v') :: d' => if decide (k = k') then (k, v) :: d' else (k', v') :: od_set d' k v
  end.

Definition OrderedDict {V} (pairs : list (string * V)) : list (string * V) :=
  foldl (λ d kv, od_set d kv.1 kv.2) [] pairs.

(** [d.keys()] *)
Definition keys {V} (d : list (string * V)) : list string := d.*1.

(** [d[k]] *)
Fixpoint getitem {V} (d : list (string * V)) (k : string) : exn + V :=
  match d with
  | [] => inl (KeyError k)
  | (k', v) :: d' => if decide (k = k') then inr v else getitem d' k
  end.

(** [repos]: name, (url, recursive clone, develop). *)
Definition repos : list (string * (string * bool * bool)) :=
  OrderedDict
    [ ("migen", ("http://github.com/m-labs/", true, true));
      ("litex", ("http://github.com/enjoy-digital/", true, true));
      ("liteeth", ("http://github.com/enjoy-digital/", false, true));
      ("litedram", ("http://github.com/enjoy-digital/", false, true));
      ("litepcie", ("http://github.com/enjoy-digital/", false, true));
      ("litevideo", ("http://github.com/enjoy-digital/", false, true));
      ("litescope", ("http://github.com/enjoy-digital/", false, true)) ].

(** How the script ends when it raises nothing: at its last line, or in
    [exit()]. *)
Inductive ended : Type := finished | exited.

Section Script.

Context {W : Type} {O : OS W}.

(** [url, need_recursive, need_develop = repos[name]] *)
Definition lookup_repo (name : string) : M W (string * bool * bool) := λ w,
  (getitem repos name, w).

(** The body of the [init] loop. *)
Definition init_one (name : string) : M W unit :=
  '(url, need_recursive, need_develop) ← lookup_repo name ;
  print ("[cloning " ++ name ++ "]...") ;;
  let full_url := url ++ name in
  let opts := if need_recursive : bool then "--recursive" else "" in
  system ("git clone " ++ full_url ++ " " ++ opts).

(** The body of the [install] loop. *)
Definition install_one (current_path name : string) : M W unit :=
  '(url, need_recursive, need_develop) ← lookup_repo name ;
  print ("[installing " ++ name ++ "]...") ;;
  when need_develop (
    chdir (path_join current_path name) ;;
    system "python3 setup.py develop").

(** The body of the [update] loop. *)
Definition update_one (current_path name : string) : M W unit :=
  print ("[updating " ++ name ++ "]...") ;;
  chdir (path_join current_path name) ;;
  system "git pull".

(** The script, for [sys.argv = argv] and the directory [current_path] the
    script lies in.  [len(sys.argv) < 2] holds when [argv] has no second
    element; otherwise [sys.argv[1]] is that element. *)
Definition script (current_path : string) (argv : list string) : M W ended :=
  match argv with
  | _ :: command :: _ =>
      (if decide (command = "init") then for_each (keys repos) init_one
       else if decide (command = "install") then
         for_each (keys repos) (install_one current_path)
       else if decide (command = "update") then
         for_each (keys repos) (update_one current_path)
       else mret ()) ;;
      mret finished
  | _ =>
      print "Available commands:" ;;
      print "- init" ;;
      print "- install" ;;
      print "- update" ;;
      mret exited
  end.

End Script.

(** What the script did, in order. *)
Inductive event : Type :=
  | printed (line : string)
  | ran (cmd : string)
  | entered (path : string).

(** An operating system that logs what the script does; a directory can be
    entered when [dirs] says so, and [os.chdir] raises otherwise. *)
Definition logging (dirs : string → bool) : OS (list event) := {|
  os_print line w := (w ++ [printed line])%list;
  os_system cmd w := (w ++ [ran cmd])%list;
  os_chdir path w :=
    if dirs path then inr (w ++ [entered path])%list
    else inl (FrameworkError "FileNotFoundError")
|}.

(** The shell commands of the script: one clone per repository, the
    installation and the update. *)
Definition clone_command (r : string * (string * bool * bool)) : string :=
  let '(name, (url, need_recursive, _)) := r in
  "git clone " ++ url ++ name ++ " " ++ (if need_recursive : bool then "--recursive" else "").

Definition shell_commands : list string :=
  (map clone_command repos ++ ["python3 setup.py develop"; "git pull"])%list.

(** What one round of the [install] and of the [update] loop logs when the
    directory can be entered. *)
Definition install_events (current_path name : string) : list event :=
  [ printed ("[installing " ++ name ++ "]...");
    entered (path_join current_path name);
    ran "python3 setup.py develop" ].

Definition update_events (current_path name : string) : list event :=
  [ printed ("[updating " ++ name ++ "]...");
    entered (path_join current_path name);
    ran "git pull" ].

(** An event within the script's remit: a shell command of the list above,
    or entering the directory of one of the repositories below
    [current_path]; whatever is printed qualifies. *)
Definition within_remit (current_path : string) (e : event) : Prop :=
  match e with
  | printed _ => True
  | ran cmd => cmd ∈ shell_commands
  | entered path => ∃ name, name ∈ keys repos ∧ path = path_join current_path name
  end.

End LitexSetup.

(** ** The framework's bookkeeping, as the specification describes it *)

Module Spec.

(** Modelled from the spec: the record [PeripheralSpec] of the data model.
    The source has no such record: a peripheral is an object handed to
    migen's [self.submodules], which is not part of the repository. *)
Record PeripheralSpec : Type := {
  name : string;
  enabled : bool;
  wants_register_window : bool;
  wants_interrupt : bool;
  memory_request : option (Z * Z)
}.

(** Modelled from the spec: the Peripheral Registry behind
    [self.submodules.<name> = ...] (migen's module registry is missing from
    the repository).  It keeps the specs in registration order. *)
Definition Registry : Type := list PeripheralSpec.

(** Modelled from the spec: [register(spec)] rejects a second registration
    under the same name with [DuplicateNameError]. *)
Definition register (spec : PeripheralSpec) (reg : Registry) : exn + Registry :=
  if bool_decide (name spec ∈ (name <$> reg))
  then inl (DuplicateNameError (name spec))
  else inr (reg ++ [spec])%list.

(** Modelled from the spec: Registry population, a sequence of [register]
    calls made in order; the first failure aborts the pass. *)
Fixpoint register_all (specs : list PeripheralSpec) (reg : Registry) : exn + Registry :=
  match specs with
  | [] => inr reg
  | spec :: specs' =>
      match register spec reg with
      | inl e => inl e
      | inr reg' => register_all specs' reg'
      end
  end.

(** Modelled from the spec: [enabled_specs()] preserves registration order. *)
Definition enabled_specs (reg : Registry) : list PeripheralSpec :=
  filter (λ p, enabled p = true) reg.

(** Modelled from the spec: the record [MemoryRegion] kept by LiteX's
    [add_memory_region], which is missing from the repository. *)
Record MemoryRegion : Type := {
  region_name : string;
  base_address : Z;
  size : Z;
  shadow_flag : bool
}.

(** The addresses of a region: [base_address ≤ a < base_address + size]. *)
Definition covers (r : MemoryRegion) (a : Z) : Prop :=
  base_address r ≤ a < base_address r + size r.

(** Modelled from the spec: two regions overlap when their address ranges
    share an address. *)
Definition overlaps (r1 r2 : MemoryRegion) : bool :=
  Z.max (base_address r1) (base_address r2)
  <? Z.min (base_address r1 + size r1) (base_address r2 + size r2).

(** Modelled from the spec: allocating a region verifies that it overlaps
    no previously registered region and fails with [OverlapError]
    otherwise. *)
Definition allocate_region (r : MemoryRegion) (registered : list MemoryRegion)
  : exn + list MemoryRegion :=
  if existsb (overlaps r) registered
  then inl (OverlapError (region_name r))
  else inr (registered ++ [r])%list.






End Spec.

(** * Properties *)

(** ** Dictionaries *)

Section DictFacts.

Implicit Types (d : gmap string Z) (l : list string) (n : string) (v s : Z).

Lemma enumerate_lookup {A} (l : list A) (s : Z) (i : nat) :
  Dict.enumerate l s !! i = (λ x, (s + Z.of_nat i, x)) <$> l !! i.
Proof.
  revert s i. induction l as [|x l IH]; intros s [|i]; simpl; try done.
  - by rewrite Z.add_0_r.
  - rewrite IH. destruct (l !! i); simpl; [|done]. do 2 f_equal. lia.
Qed.

(** The enumeration of [l] from [s], written into [d0]: a name outside [l]
    keeps the entry of [d0], a name of [l] holds [s + i] for one of its
    positions [i]. *)
Lemma insert_pairs_not_elem d0 l s n :
  n ∉ l →
  Dict.insert_pairs d0 (map (λ vn : Z * string, (vn.2, vn.1)) (Dict.enumerate l s)) !! n
  = d0 !! n.
Proof.
  unfold Dict.insert_pairs. revert d0 s.
  induction l as [|x l IH]; intros d0 s Hn; simpl; [done|].
  apply not_elem_of_cons in Hn as [Hx Hl].
  rewrite IH by done. by rewrite lookup_insert_ne.
Qed.

Lemma insert_pairs_elem d0 l s n :
  n ∈ l →
  ∃ i : nat, l !! i = Some n ∧
    Dict.insert_pairs d0 (map (λ vn : Z * string, (vn.2, vn.1)) (Dict.enumerate l s)) !! n
    = Some (s + Z.of_nat i).
Proof.
  revert d0 s. induction l as [|x l IH]; intros d0 s Hn.
  { by apply elem_of_nil in Hn. }
  destruct (decide (n ∈ l)) as [Hl|Hl].
  - destruct (IH (<[x:=s]> d0) (s + 1) Hl) as (i & Hi & Hv).
    exists (Datatypes.S i). split; [done|].
    unfold Dict.insert_pairs in *. simpl in *. rewrite Hv. f_equal. lia.
  - apply elem_of_cons in Hn as [->|Hn]; [|done].
    exists 0%nat. split; [done|].
    pose proof (insert_pairs_not_elem (<[x:=s]> d0) l (s + 1) x Hl) as Hout.
    unfold Dict.insert_pairs in *. simpl in *. rewrite Hout.
    rewrite lookup_insert_eq. f_equal. lia.
Qed.

Lemma of_pairs_not_elem l s n :
  n ∉ l →
  Dict.of_pairs (map (λ vn : Z * string, (vn.2, vn.1)) (Dict.enumerate l s)) !! n = None.
Proof. intros Hn. unfold Dict.of_pairs. by rewrite insert_pairs_not_elem. Qed.

Lemma of_pairs_elem l s n :
  n ∈ l →
  ∃ i : nat, l !! i = Some n ∧
    Dict.of_pairs (map (λ vn : Z * string, (vn.2, vn.1)) (Dict.enumerate l s)) !! n
    = Some (s + Z.of_nat i).
Proof. intros Hn. unfold Dict.of_pairs. by apply insert_pairs_elem. Qed.

Lemma values_elem d v : v ∈ Dict.values d ↔ ∃ n, d !! n = Some v.
Proof.
  unfold Dict.values. rewrite list_elem_of_fmap. split.
  - intros ([n v'] & -> & Hin). exists n. by apply elem_of_map_to_list in Hin.
  - intros [n Hn]. exists (n, v). split; [done|]. by apply elem_of_map_to_list.
Qed.

Lemma values_nil d : Dict.values d = [] ↔ d = ∅.
Proof.
  unfold Dict.values. rewrite <- map_to_list_empty_iff. split.
  - apply fmap_nil_inv.
  - by intros ->.
Qed.

Lemma foldr_max_ge (v : Z) (vs : list Z) :
  v ≤ foldr Z.max v vs ∧ ∀ w, w ∈ vs → w ≤ foldr Z.max v vs.
Proof.
  induction vs as [|x vs [IH1 IH2]]; simpl.
  - split; [lia|]. intros w Hw. by apply elem_of_nil in Hw.
  - split; [lia|]. intros w [->|Hw]%elem_of_cons; [lia|]. specialize (IH2 w Hw). lia.
Qed.

Lemma max_ge (vs : list Z) (m w : Z) : Dict.max vs = inr m → w ∈ vs → w ≤ m.
Proof.
  destruct vs as [|v vs]; simpl; [done|]. intros [= <-] Hw.
  destruct (foldr_max_ge v vs) as [H1 H2].
  apply elem_of_cons in Hw as [->|Hw]; auto.
Qed.

Lemma max_nil_iff (vs : list Z) : Dict.max vs = inl ValueError ↔ vs = [].
Proof. destruct vs; simpl; split; done. Qed.

Lemma max_total (vs : list Z) : vs ≠ [] → ∃ m, Dict.max vs = inr m.
Proof. destruct vs as [|v vs]; [done|]. intros _. simpl. eauto. Qed.

End DictFacts.

(** ** The register-window allocator *)

Section Allocator.

Implicit Types (d : gmap string Z) (l : list string) (n : string).

Lemma collision_free_lookup d :
  collision_free d ↔ ∀ n1 n2 v, d !! n1 = Some v → d !! n2 = Some v → n1 = n2.
Proof.
  unfold collision_free, Dict.values. split.
  - intros Hnd n1 n2 v H1 H2.
    apply elem_of_map_to_list in H1, H2.
    apply list_elem_of_lookup in H1 as [i Hi], H2 as [j Hj].
    assert (i = j) as ->.
    { eapply NoDup_lookup; [exact Hnd| |]; rewrite list_lookup_fmap.
      - by rewrite Hi.
      - by rewrite Hj. }
    congruence.
  - intros Hinj. apply NoDup_fmap_2_strong; [|apply NoDup_map_to_list].
    intros [n1 v1] [n2 v2] H1%elem_of_map_to_list H2%elem_of_map_to_list; simpl.
    intros <-. f_equal. eauto.
Qed.

(** What a successful call leaves in the map: names outside the list are
    untouched, and a listed name holds [max + 1 + i] for one of its
    positions [i] in the list. *)
Lemma csr_map_update_inr d l d' :
  csr_map_update d l = inr d' →
  ∃ m, Dict.max (Dict.values d) = inr m ∧
    (∀ n, n ∉ l → d' !! n = d !! n) ∧
    (∀ n, n ∈ l → ∃ i : nat, l !! i = Some n ∧ d' !! n = Some (m + 1 + Z.of_nat i)).
Proof.
  unfold csr_map_update. destruct (Dict.max (Dict.values d)) as [e|m]; [done|].
  intros [= <-]. exists m. split; [done|]. unfold Dict.update. split.
  - intros n Hn. rewrite lookup_union_r; [done|]. by apply of_pairs_not_elem.
  - intros n Hn. destruct (of_pairs_elem l (m + 1) n Hn) as (i & Hi & Hv).
    exists i. split; [done|]. by erewrite lookup_union_Some_l.
Qed.

Lemma csr_map_update_total d l : d ≠ ∅ → ∃ d', csr_map_update d l = inr d'.
Proof.
  intros Hd. unfold csr_map_update.
  destruct (max_total (Dict.values d)) as [m ->]; [|eauto].
  by rewrite values_nil.
Qed.

Lemma csr_map_update_empty l : csr_map_update ∅ l = inl ValueError.
Proof. done. Qed.

Lemma csr_map_update_old_le d m n v :
  Dict.max (Dict.values d) = inr m → d !! n = Some v → v ≤ m.
Proof. intros Hm Hn. eapply max_ge; [done|]. apply values_elem. eauto. Qed.


(** A one-entry dictionary updated with an inherited map. *)
Lemma update_singleton_lookup (k : string) (v : Z) d n :
  Dict.update {[ k := v ]} d !! n
  = match d !! n with Some w => Some w | None => if decide (k = n) then Some v else None end.
Proof.
  unfold Dict.update. destruct (d !! n) as [w|] eqn:Hn.
  - by erewrite lookup_union_Some_l.
  - rewrite lookup_union_r by done. by rewrite lookup_singleton.
Qed.

Lemma update_singleton_collision_free (k : string) (v : Z) d :
  collision_free d → (∀ n, d !! n = Some v → n = k) →
  collision_free (Dict.update {[ k := v ]} d).
Proof.
  rewrite !collision_free_lookup. intros Hd Hk n1 n2 w.
  rewrite !update_singleton_lookup. intros H1 H2.
  destruct (d !! n1) as [w1|] eqn:E1, (d !! n2) as [w2|] eqn:E2; simplify_eq.
  - eauto.
  - case_decide; simplify_eq. by apply Hk.
  - case_decide; simplify_eq. symmetry. by apply Hk.
  - repeat case_decide; by simplify_eq.
Qed.



Lemma csr_map_update_single d (m : Z) n :
  Dict.max (Dict.values d) = inr m → csr_map_update d [n] = inr (<[n := m + 1]> d).
Proof.
  intros Hm. unfold csr_map_update. rewrite Hm. f_equal.
  unfold Dict.update, Dict.of_pairs. simpl.
  by rewrite insert_empty, <- insert_union_singleton_l.
Qed.

End Allocator.

Lemma class_body_inr (base_csr base_irq base_mem : gmap string Z) (cm : class_maps) :
  NeTV2SoC_class_body base_csr base_irq base_mem = inr cm →
  csr_map_update base_csr csr_peripherals = inr (csr_map cm) ∧
  interrupt_map cm = NeTV2SoC_interrupt_map base_irq ∧
  mem_map cm = NeTV2SoC_mem_map base_mem.
Proof.
  unfold NeTV2SoC_class_body.
  destruct (csr_map_update base_csr csr_peripherals); [done|]. by intros [= <-].
Qed.

Lemma class_body_total (base_csr base_irq base_mem : gmap string Z) :
  base_csr ≠ ∅ → ∃ cm, NeTV2SoC_class_body base_csr base_irq base_mem = inr cm.
Proof.
  intros Hne. unfold NeTV2SoC_class_body.
  destruct (csr_map_update_total base_csr csr_peripherals Hne) as [d' ->]. eauto.
Qed.

Lemma interrupt_map_lookup (base_irq : gmap string Z) (n : string) :
  NeTV2SoC_interrupt_map base_irq !! n
  = match base_irq !! n with
    | Some v => Some v
    | None => if decide ("ethmac" = n) then Some 3 else None
    end.
Proof. apply update_singleton_lookup. Qed.

Lemma mem_map_lookup (base_mem : gmap string Z) (n : string) :
  NeTV2SoC_mem_map base_mem !! n
  = match base_mem !! n with
    | Some v => Some v
    | None => if decide ("ethmac" = n) then Some 0x30000000 else None
    end.
Proof. apply update_singleton_lookup. Qed.

Lemma singleton_non_empty (k : string) (v : Z) : ({[ k := v ]} : gmap string Z) ≠ ∅.
Proof. apply insert_non_empty. Qed.

(** C1 (amended).  [csr_map_update] has no starting ordinal: on an empty map
    it raises [ValueError], whatever the list.  On a non-empty map it
    succeeds; every listed name then holds an ordinal strictly greater than
    every ordinal the map held before the call, and the names that are not
    listed keep theirs.  In particular a map whose largest ordinal is 2,
    extended with one name it does not hold yet, gives that name the ordinal
    3 and changes nothing else. *)
Theorem csr_map_update_above_old (d : gmap string Z) (l : list string) :
  d ≠ ∅ →
  csr_map_update ∅ l = inl ValueError ∧
  (∃ d', csr_map_update d l = inr d' ∧
     (∀ n, n ∈ l → ∃ v, d' !! n = Some v ∧ ∀ k u, d !! k = Some u → u < v) ∧
     (∀ n, n ∉ l → d' !! n = d !! n)) ∧
  (∀ new, Dict.max (Dict.values d) = inr 2 → d !! new = None →
     csr_map_update d [new] = inr (<[new := 3]> d) ∧
     ∀ k, k ≠ new → <[new := 3]> d !! k = d !! k).
Proof.
  intros Hd. split; [apply csr_map_update_empty|]. split.
  - destruct (csr_map_update_total d l Hd) as [d' Hrun]. exists d'. split; [done|].
    destruct (csr_map_update_inr _ _ _ Hrun) as (m & Hm & Hout & Hin).
    split; [|done]. intros n Hn. destruct (Hin n Hn) as (i & _ & Hv).
    eexists. split; [exact Hv|]. intros k u Hk.
    pose proof (csr_map_update_old_le d m k u Hm Hk). lia.
  - intros new Hm Hnew. split.
    + by rewrite (csr_map_update_single d 2 new Hm).
    + intros k Hk. by rewrite lookup_insert_ne.
Qed.

Lemma csr_map_update_above_old_witness :
  ∃ d', csr_map_update {[ "a" := 0; "b" := 1; "c" := 2 ]} ["new"] = inr d' ∧
    d' !! "new" = Some 3 ∧ d' !! "a" = Some 0 ∧ d' !! "b" = Some 1 ∧ d' !! "c" = Some 2.
Proof.
  destruct (csr_map_update_above_old {[ "a" := 0; "b" := 1; "c" := 2 ]} ["new"])
    as (_ & _ & Hnew).
  - intros Habs. apply (f_equal (lookup "a")) in Habs. vm_compute in Habs. discriminate.
  - destruct (Hnew "new") as [Hrun _]; [vm_compute; reflexivity..|].
    eexists. split; [exact Hrun|]. vm_compute. repeat split.
Defined.

(** C1, as stated, fails: with an empty namespace no ordinal is returned at
    all, the call raises [ValueError]. *)
Lemma csr_map_update_empty_raises :
  csr_map_update ∅ ["crg"] = inl ValueError ∧
  csr_map_update ∅ [] = inl ValueError.
Proof. split; reflexivity. Qed.

(** X1.  Ordinals follow the order of the list: when no name is listed twice, the
    name at position [i] receives the ordinal [max + 1 + i].  The peripheral
    list of [NeTV2SoC] lists no name twice. *)
Theorem csr_map_update_in_list_order (d : gmap string Z) (l : list string)
    (m : Z) (i : nat) (n : string) :
  NoDup l → Dict.max (Dict.values d) = inr m → l !! i = Some n →
  (∃ d', csr_map_update d l = inr d' ∧ d' !! n = Some (m + 1 + Z.of_nat i)) ∧
  NoDup csr_peripherals.
Proof.
  intros Hnd Hm Hi. split; [|apply (bool_decide_unpack _); vm_compute; reflexivity].
  destruct (csr_map_update d l) as [e|d'] eqn:Hrun.
  { unfold csr_map_update in Hrun. rewrite Hm in Hrun. discriminate. }
  exists d'. split; [done|].
  destruct (csr_map_update_inr _ _ _ Hrun) as (m' & Hm' & _ & Hin).
  assert (m' = m) as -> by congruence.
  destruct (Hin n) as (j & Hj & Hv); [by eapply list_elem_of_lookup_2|].
  by rewrite (NoDup_lookup l i j n Hnd Hi Hj).
Qed.

Lemma csr_map_update_in_list_order_witness :
  ∃ d', csr_map_update {[ "uart" := 2 ]} csr_peripherals = inr d' ∧
    d' !! "ethmac" = Some 10.
Proof.
  refine (proj1 (csr_map_update_in_list_order {[ "uart" := 2 ]} csr_peripherals 2 7 "ethmac"
                   _ _ _)).
  - apply (bool_decide_unpack _). vm_compute. reflexivity.
  - reflexivity.
  - reflexivity.
Defined.

(** C2 (amended).  A successful call leaves every entry whose name is not in
    the list as it was.  A listed name that the map already held is not
    looked up: it is given a fresh ordinal, strictly greater than the one it
    had. *)
Theorem csr_map_update_renumbers_listed (d d' : gmap string Z) (l : list string) :
  csr_map_update d l = inr d' →
  (∀ n, n ∉ l → d' !! n = d !! n) ∧
  (∀ n old, n ∈ l → d !! n = Some old → ∃ new, d' !! n = Some new ∧ old < new).
Proof.
  intros Hrun. destruct (csr_map_update_inr _ _ _ Hrun) as (m & Hm & Hout & Hin).
  split; [done|]. intros n old Hn Hold. destruct (Hin n Hn) as (i & _ & Hv).
  eexists. split; [exact Hv|].
  pose proof (csr_map_update_old_le d m n old Hm Hold). lia.
Qed.

Lemma csr_map_update_renumbers_listed_witness :
  ∃ new, ({[ "crg" := 3; "uart" := 2 ]} : gmap string Z) !! "crg" = Some new ∧ 0 < new.
Proof.
  destruct (csr_map_update_renumbers_listed
              {[ "crg" := 0; "uart" := 2 ]} {[ "crg" := 3; "uart" := 2 ]} ["crg"])
    as [_ Hin].
  - vm_compute. reflexivity.
  - apply (Hin "crg" 0); [apply list_elem_of_here|vm_compute; reflexivity].
Defined.

(** C2, as stated, fails: allocating a name the map already holds renumbers
    it (here "crg" moves from 0 to 3), and allocating the same name twice
    issues two different ordinals (3, then 4). *)
Lemma csr_map_update_not_idempotent :
  csr_map_update {[ "crg" := 0; "uart" := 2 ]} ["crg"]
  = inr {[ "crg" := 3; "uart" := 2 ]} ∧
  csr_map_update {[ "uart" := 2 ]} ["dna"] = inr {[ "uart" := 2; "dna" := 3 ]} ∧
  csr_map_update {[ "uart" := 2; "dna" := 3 ]} ["dna"] = inr {[ "uart" := 2; "dna" := 4 ]}.
Proof. repeat split; vm_compute; reflexivity. Qed.

(** C3 (amended).  The class body builds [interrupt_map] and [mem_map] by a
    plain dictionary update, with no conflict check: an inherited entry is
    always kept, also when its name is "ethmac" (it then replaces the
    requested value) or when it already holds the requested value under
    another name; the requested "ethmac" entry is kept only when the
    inherited map has none.  The only exception the class body can raise is
    the [ValueError] of an empty inherited [csr_map]. *)
Theorem class_maps_plain_update (base_csr base_irq base_mem : gmap string Z) :
  (∀ n, NeTV2SoC_interrupt_map base_irq !! n
        = match base_irq !! n with
          | Some v => Some v
          | None => if decide ("ethmac" = n) then Some 3 else None
          end) ∧
  (∀ n, NeTV2SoC_mem_map base_mem !! n
        = match base_mem !! n with
          | Some v => Some v
          | None => if decide ("ethmac" = n) then Some 0x30000000 else None
          end) ∧
  (∀ e, NeTV2SoC_class_body base_csr base_irq base_mem = inl e →
        e = ValueError ∧ base_csr = ∅) ∧
  (∀ cm, NeTV2SoC_class_body base_csr base_irq base_mem = inr cm →
        interrupt_map cm = NeTV2SoC_interrupt_map base_irq ∧
        mem_map cm = NeTV2SoC_mem_map base_mem).
Proof.
  split; [|split; [|split]].
  - apply interrupt_map_lookup.
  - apply mem_map_lookup.
  - intros e He. destruct (decide (base_csr = ∅)) as [->|Hne].
    + unfold NeTV2SoC_class_body in He. rewrite csr_map_update_empty in He.
      by simplify_eq.
    + destruct (class_body_total base_csr base_irq base_mem Hne) as [cm Hcm].
      congruence.
  - intros cm Hcm. by destruct (class_body_inr _ _ _ _ Hcm) as (_ & ? & ?).
Qed.

(** C3, as stated, fails: requesting interrupt 3 for "ethmac" when the
    inherited map already gives 3 to "uart" raises nothing and keeps both,
    and an inherited "ethmac" entry silently replaces the requested one. *)
Lemma interrupt_map_conflict_undetected :
  (∃ cm, NeTV2SoC_class_body {[ "crg" := 0 ]} {[ "uart" := 3 ]} ∅ = inr cm ∧
     interrupt_map cm = NeTV2SoC_interrupt_map {[ "uart" := 3 ]}) ∧
  NeTV2SoC_interrupt_map {[ "uart" := 3 ]} !! "ethmac" = Some 3 ∧
  NeTV2SoC_interrupt_map {[ "uart" := 3 ]} !! "uart" = Some 3 ∧
  NeTV2SoC_interrupt_map {[ "ethmac" := 5 ]} !! "ethmac" = Some 5.
Proof.
  split; [|by rewrite !interrupt_map_lookup].
  destruct (class_body_total {[ "crg" := 0 ]} {[ "uart" := 3 ]} ∅) as [cm Hcm].
  { apply singleton_non_empty. }
  exists cm. split; [done|]. by destruct (class_body_inr _ _ _ _ Hcm) as (_ & ? & _).
Qed.





(** ** Sorting the items of a dictionary *)

Section Sorted.

Context {V : Type}.
Implicit Types (x y : string * V) (l : list (string * V)).

Local Instance key_le_trans : Transitive (@key_le V).
Proof. intros x y z. unfold key_le. apply transitivity. Qed.

Lemma leb_true x y : String.leb x.1 y.1 = true → key_le x y.
Proof. unfold key_le, String.le. by intros ->. Qed.

Lemma leb_false x y : String.leb x.1 y.1 = false → key_le y x.
Proof.
  unfold key_le. intros Hf. destruct (total String.le x.1 y.1) as [Hle|Hle]; [|done].
  unfold String.le in Hle. rewrite Hf in Hle. done.
Qed.

Lemma sorted_insert_Permutation x l : sorted_insert x l ≡ₚ x :: l.
Proof.
  induction l as [|y l IH]; simpl; [done|].
  destruct (String.leb x.1 y.1); [done|]. rewrite IH. apply Permutation_swap.
Qed.

Lemma sorted_Permutation l : sorted l ≡ₚ l.
Proof.
  induction l as [|x l IH]; simpl; [done|].
  by rewrite sorted_insert_Permutation, IH.
Qed.

Lemma sorted_insert_Sorted x l : Sorted key_le l → Sorted key_le (sorted_insert x l).
Proof.
  induction 1 as [|y l Hl IH Hhd]; simpl.
  { repeat constructor. }
  destruct (String.leb x.1 y.1) eqn:Hxy.
  - constructor; [by constructor|]. constructor. by apply leb_true.
  - constructor; [done|]. apply leb_false in Hxy.
    destruct Hhd as [|z l Hyz]; simpl; [by constructor|].
    destruct (String.leb x.1 z.1); by constructor.
Qed.

Lemma sorted_Sorted l : Sorted key_le (sorted l).
Proof.
  induction l as [|x l IH]; simpl; [constructor|]. by apply sorted_insert_Sorted.
Qed.

(** The result of [sorted] does not depend on the order the dictionary
    yields its items in. *)
Lemma sorted_order_independent l l' :
  NoDup l.*1 → l ≡ₚ l' → sorted l = sorted l'.
Proof.
  intros Hnd Hperm.
  apply (Sorted_unique_strong key_le); [|apply sorted_Sorted..|].
  - intros x y Hx Hy Hxy Hyx.
    rewrite sorted_Permutation in Hx. rewrite sorted_Permutation, <- Hperm in Hy.
    assert (x.1 = y.1) as Hk by (by apply (anti_symm String.le)).
    apply list_elem_of_lookup in Hx as [i Hi], Hy as [j Hj].
    assert (i = j) as ->.
    { eapply NoDup_lookup; [exact Hnd| |]; rewrite list_lookup_fmap.
      - by rewrite Hi.
      - rewrite Hj. simpl. by rewrite Hk. }
    congruence.
  - by rewrite !sorted_Permutation.
Qed.

End Sorted.

(** ** The constructor and the program *)

Section SoCFacts.

Context {S : Type} {F : Framework S}.
Implicit Types (g : string → option bool) (mm : gmap string Z) (a : args) (s : S).





Lemma init_with_pcie_unbound g mm sb items a s :
  with_pcie a = true → g "with_interboard_communication" = None →
  NeTV2SoC_init_with g mm sb items a s
  = (inl (NameError "with_interboard_communication"), s).
Proof.
  intros Hpcie Hg. unfold NeTV2SoC_init_with, py_and, global.
  rewrite Hpcie, Hg. reflexivity.
Qed.




Lemma init_with_order_independent g mm sb items items' a :
  NoDup items.*1 → items ≡ₚ items' →
  NeTV2SoC_init_with g mm sb items a = NeTV2SoC_init_with g mm sb items' a.
Proof.
  intros Hnd Hperm.
  unfold NeTV2SoC_init_with, pcie_block_with, pcie_msi_loop.
  by rewrite (sorted_order_independent items items' Hnd Hperm).
Qed.

End SoCFacts.









(** ** The framework's bookkeeping *)

Section SpecFacts.

Import Spec.

Lemma register_fresh (spec : PeripheralSpec) (reg : Registry) :
  name spec ∉ (name <$> reg) → register spec reg = inr (reg ++ [spec])%list.
Proof. intros Hn. unfold register. by rewrite bool_decide_eq_false_2. Qed.

Lemma register_taken (spec : PeripheralSpec) (reg : Registry) :
  name spec ∈ (name <$> reg) → register spec reg = inl (DuplicateNameError (name spec)).
Proof. intros Hn. unfold register. by rewrite bool_decide_eq_true_2. Qed.

Lemma register_inr (spec : PeripheralSpec) (reg reg' : Registry) :
  register spec reg = inr reg' →
  (name spec ∉ (name <$> reg)) ∧ reg' = (reg ++ [spec])%list.
Proof. unfold register. case_bool_decide; [done|]. by intros [= <-]. Qed.

(** A sequence of registrations that succeeds appends the specs in order,
    and none of them has a name the registry held when the sequence
    started. *)
Lemma register_all_inr (specs : list PeripheralSpec) (reg reg' : Registry) :
  register_all specs reg = inr reg' →
  reg' = (reg ++ specs)%list ∧ ∀ p, p ∈ specs → name p ∉ (name <$> reg).
Proof.
  revert reg. induction specs as [|spec specs IH]; intros reg; simpl.
  - intros [= <-]. split; [by rewrite app_nil_r|]. intros p Hp. by apply elem_of_nil in Hp.
  - destruct (register spec reg) as [e|reg1] eqn:Hreg; [done|]. intros Hall.
    apply register_inr in Hreg as [Hfresh ->].
    destruct (IH _ Hall) as [-> Hrest]. split; [by rewrite <- app_assoc|].
    intros p [->|Hp]%elem_of_cons; [done|].
    intros Hin. apply (Hrest p Hp). rewrite fmap_app. apply elem_of_app. by left.
Qed.

Lemma overlaps_shared_address (r1 r2 : MemoryRegion) :
  overlaps r1 r2 = true ↔ ∃ a, covers r1 a ∧ covers r2 a.
Proof.
  unfold overlaps, covers. rewrite Z.ltb_lt. split.
  - intros Hlt. exists (Z.max (base_address r1) (base_address r2)). lia.
  - intros (a & H1 & H2). lia.
Qed.




End SpecFacts.

(** C4.  A second registration under a name fails with
    [DuplicateNameError], however many other registrations were made in
    between and whatever the registry held before: once [spec] has been
    registered, every spec of the same name is rejected.  The first
    registration stays in effect: the registry is the one the successful
    registrations left, and [spec] is the only spec it holds under that
    name.  So it is for "ethmac" registered twice, in any registry that does
    not hold the name yet. *)
Theorem register_twice_rejected (spec spec' : Spec.PeripheralSpec)
    (between : list Spec.PeripheralSpec) (reg reg1 reg2 : Spec.Registry) :
  Spec.register spec reg = inr reg1 → Spec.register_all between reg1 = inr reg2 →
  Spec.name spec' = Spec.name spec →
  Spec.register spec' reg2 = inl (DuplicateNameError (Spec.name spec)) ∧
  reg2 = (reg ++ spec :: between)%list ∧
  (∀ p, p ∈ reg2 → Spec.name p = Spec.name spec → p = spec) ∧
  (∀ p p' r, Spec.name p = "ethmac" → Spec.name p' = "ethmac" →
     "ethmac" ∉ (Spec.name <$> r) →
     ∃ r1, Spec.register p r = inr r1 ∧
       Spec.register p' r1 = inl (DuplicateNameError "ethmac")).
Proof.
  intros Hfirst Hbetween Hname. apply register_inr in Hfirst as [Hfresh ->].
  apply register_all_inr in Hbetween as [-> Hrest].
  split; [|split; [by rewrite <- app_assoc|split]].
  - rewrite <- Hname. apply register_taken.
    rewrite Hname, !fmap_app. apply elem_of_app. left. apply elem_of_app. right.
    apply list_elem_of_here.
  - intros p Hp Hp_name. apply elem_of_app in Hp as [Hp|Hp].
    + apply elem_of_app in Hp as [Hp|Hp].
      * exfalso. apply Hfresh. rewrite <- Hp_name. by apply list_elem_of_fmap_2.
      * by apply list_elem_of_singleton in Hp.
    + exfalso. apply (Hrest p Hp). rewrite Hp_name, fmap_app. apply elem_of_app. right.
      apply list_elem_of_here.
  - intros p p' r Hp Hp' Hr. exists (r ++ [p])%list. split.
    + apply register_fresh. by rewrite Hp.
    + rewrite <- Hp'. apply register_taken.
      rewrite Hp', fmap_app. apply elem_of_app. right. simpl. rewrite Hp.
      apply list_elem_of_here.
Qed.

Lemma register_twice_rejected_witness :
  Spec.register
    {| Spec.name := "ethphy"; Spec.enabled := true; Spec.wants_register_window := true;
       Spec.wants_interrupt := false; Spec.memory_request := None |}
    [ {| Spec.name := "ethphy"; Spec.enabled := true; Spec.wants_register_window := true;
         Spec.wants_interrupt := false; Spec.memory_request := None |};
      {| Spec.name := "ethmac"; Spec.enabled := true; Spec.wants_register_window := true;
         Spec.wants_interrupt := true; Spec.memory_request := Some (0x30000000, 0x2000) |} ]
  = inl (DuplicateNameError "ethphy").
Proof.
  refine (proj1 (register_twice_rejected
                   {| Spec.name := "ethphy"; Spec.enabled := true;
                      Spec.wants_register_window := true; Spec.wants_interrupt := false;
                      Spec.memory_request := None |}
                   {| Spec.name := "ethphy"; Spec.enabled := true;
                      Spec.wants_register_window := true; Spec.wants_interrupt := false;
                      Spec.memory_request := None |}
                   [ {| Spec.name := "ethmac"; Spec.enabled := true;
                        Spec.wants_register_window := true; Spec.wants_interrupt := true;
                        Spec.memory_request := Some (0x30000000, 0x2000) |} ]
                   []
                   [ {| Spec.name := "ethphy"; Spec.enabled := true;
                        Spec.wants_register_window := true; Spec.wants_interrupt := false;
                        Spec.memory_request := None |} ]
                   _ _ _ _)); reflexivity.
Defined.

(** C7.  Allocating a region that shares an address with a region already
    registered fails with [OverlapError].  The regions at 0x1000 of size
    0x1000 and at 0x1800 of size 0x100 overlap: the first is accepted, the
    second is then rejected. *)
Theorem allocate_overlapping_rejected (r r' : Spec.MemoryRegion)
    (registered : list Spec.MemoryRegion) (a : Z) :
  r' ∈ registered → Spec.covers r a → Spec.covers r' a →
  Spec.allocate_region r registered = inl (OverlapError (Spec.region_name r)) ∧
  Spec.allocate_region
    {| Spec.region_name := "a"; Spec.base_address := 0x1000; Spec.size := 0x1000;
       Spec.shadow_flag := false |} []
  = inr [ {| Spec.region_name := "a"; Spec.base_address := 0x1000; Spec.size := 0x1000;
             Spec.shadow_flag := false |} ] ∧
  Spec.allocate_region
    {| Spec.region_name := "b"; Spec.base_address := 0x1800; Spec.size := 0x100;
       Spec.shadow_flag := false |}
    [ {| Spec.region_name := "a"; Spec.base_address := 0x1000; Spec.size := 0x1000;
         Spec.shadow_flag := false |} ]
  = inl (OverlapError "b").
Proof.
  intros Hin Hr Hr'. split; [|split; reflexivity].
  unfold Spec.allocate_region.
  assert (existsb (Spec.overlaps r) registered = true) as ->; [|done].
  apply existsb_exists. exists r'. split; [by apply list_elem_of_In|].
  apply overlaps_shared_address. eauto.
Qed.

Lemma allocate_overlapping_rejected_witness :
  Spec.allocate_region
    {| Spec.region_name := "b"; Spec.base_address := 0x1800; Spec.size := 0x100;
       Spec.shadow_flag := false |}
    [ {| Spec.region_name := "a"; Spec.base_address := 0x1000; Spec.size := 0x1000;
         Spec.shadow_flag := false |} ]
  = inl (OverlapError "b").
Proof.
  refine (proj1 (allocate_overlapping_rejected
                   {| Spec.region_name := "b"; Spec.base_address := 0x1800;
                      Spec.size := 0x100; Spec.shadow_flag := false |}
                   {| Spec.region_name := "a"; Spec.base_address := 0x1000;
                      Spec.size := 0x1000; Spec.shadow_flag := false |}
                   _ 0x1800 _ _ _)).
  - apply list_elem_of_here.
  - unfold Spec.covers. simpl. lia.
  - unfold Spec.covers. simpl. lia.
Defined.


(** * Further properties *)

(** ** The allocator: keys, maximum, repeated names, successive calls *)

Section AllocatorLaws.

Implicit Types (d : gmap string Z) (l : list string) (n : string).

(** The pairs [csr_map_update] writes for the list [l] from the ordinal [s]. *)
Local Abbreviation pairs l s :=
  (map (λ vn : Z * string, (vn.2, vn.1)) (Dict.enumerate l s)).

Lemma enumerate_app {A} (l1 l2 : list A) (s : Z) :
  Dict.enumerate (l1 ++ l2) s
  = (Dict.enumerate l1 s ++ Dict.enumerate l2 (s + Z.of_nat (length l1)))%list.
Proof.
  revert s. induction l1 as [|x l1 IH]; intros s; simpl.
  - by rewrite Z.add_0_r.
  - rewrite IH. do 3 f_equal. lia.
Qed.

Lemma insert_pairs_app d (kvs1 kvs2 : list (string * Z)) :
  Dict.insert_pairs d (kvs1 ++ kvs2) = Dict.insert_pairs (Dict.insert_pairs d kvs1) kvs2.
Proof. unfold Dict.insert_pairs. apply foldl_app. Qed.

Lemma insert_pairs_union d (kvs : list (string * Z)) :
  Dict.insert_pairs d kvs = Dict.insert_pairs ∅ kvs ∪ d.
Proof.
  unfold Dict.insert_pairs. revert d. induction kvs as [|[k v] kvs IH]; intros d; simpl.
  - by rewrite (left_id_L ∅ (∪)).
  - rewrite (IH (<[k:=v]> d)), (IH (<[k:=v]> ∅)).
    rewrite <- (assoc_L (∪)). f_equal.
    by rewrite insert_empty, <- insert_union_singleton_l.
Qed.

(** The call written as insertions into the map itself. *)
Lemma csr_map_update_as_inserts d l (m : Z) :
  Dict.max (Dict.values d) = inr m →
  csr_map_update d l = inr (Dict.insert_pairs d (pairs l (m + 1))).
Proof.
  intros Hm. unfold csr_map_update. rewrite Hm. f_equal.
  unfold Dict.update, Dict.of_pairs. symmetry. apply insert_pairs_union.
Qed.

(** A listed name holds the ordinal of its last position in the list. *)
Lemma insert_pairs_last d0 l (s : Z) n (i : nat) :
  l !! i = Some n → (∀ j : nat, (i < j)%nat → l !! j ≠ Some n) →
  Dict.insert_pairs d0 (pairs l s) !! n = Some (s + Z.of_nat i).
Proof.
  revert d0 s i. induction l as [|x l IH]; intros d0 s i Hi Hlast; [done|].
  destruct i as [|i]; simpl in Hi.
  - simplify_eq.
    assert (n ∉ l) as Hn.
    { intros [j Hj]%list_elem_of_lookup. by apply (Hlast (Datatypes.S j)); [lia|]. }
    pose proof (insert_pairs_not_elem (<[n:=s]> d0) l (s + 1) n Hn) as Hout.
    unfold Dict.insert_pairs in *. simpl in *. rewrite Hout, lookup_insert_eq.
    f_equal. lia.
  - assert (∀ j : nat, (i < j)%nat → l !! j ≠ Some n) as Hlast'.
    { intros j Hj. apply (Hlast (Datatypes.S j)). lia. }
    pose proof (IH (<[x:=s]> d0) (s + 1) i Hi Hlast') as Hv.
    unfold Dict.insert_pairs in *. simpl in *. rewrite Hv. f_equal. lia.
Qed.

Lemma last_position l n :
  n ∈ l → ∃ i : nat, l !! i = Some n ∧ ∀ j : nat, (i < j)%nat → l !! j ≠ Some n.
Proof.
  induction l as [|x l IH]; intros Hn; [by apply elem_of_nil in Hn|].
  destruct (decide (n ∈ l)) as [Hl|Hl].
  - destruct (IH Hl) as (i & Hi & Hlast). exists (Datatypes.S i). split; [done|].
    intros [|j] Hj; [lia|]. simpl. apply Hlast. lia.
  - apply elem_of_cons in Hn as [->|Hn]; [|done]. exists 0%nat. split; [done|].
    intros [|j] Hj; [lia|]. simpl. intros Hx. apply Hl. by eapply list_elem_of_lookup_2.
Qed.

Lemma dict_max_elem (v : Z) (vs : list Z) : foldr Z.max v vs ∈ v :: vs.
Proof.
  induction vs as [|x vs IH]; simpl; [apply list_elem_of_here|].
  destruct (Z.max_spec x (foldr Z.max v vs)) as [[_ ->]|[_ ->]].
  - apply elem_of_cons in IH as [->|IH]; [apply list_elem_of_here|].
    by do 2 apply list_elem_of_further.
  - apply list_elem_of_further, list_elem_of_here.
Qed.

Lemma dict_max_spec (vs : list Z) (x : Z) :
  Dict.max vs = inr x ↔ x ∈ vs ∧ ∀ w, w ∈ vs → w ≤ x.
Proof.
  split.
  - intros Hx. split; [|intros w; by apply max_ge].
    destruct vs as [|v vs]; [done|]. simpl in Hx. simplify_eq. apply dict_max_elem.
  - intros [Hin Hub]. destruct vs as [|v vs]; [by apply elem_of_nil in Hin|].
    simpl. f_equal.
    pose proof (dict_max_elem v vs) as Hmax.
    destruct (foldr_max_ge v vs) as [Hv Hvs].
    assert (x ≤ foldr Z.max v vs).
    { apply elem_of_cons in Hin as [->|Hin]; auto. }
    specialize (Hub _ Hmax). lia.
Qed.

Lemma csr_map_update_lookup_last d l d' (m : Z) n (i : nat) :
  Dict.max (Dict.values d) = inr m → csr_map_update d l = inr d' →
  l !! i = Some n → (∀ j : nat, (i < j)%nat → l !! j ≠ Some n) →
  d' !! n = Some (m + 1 + Z.of_nat i).
Proof.
  intros Hm Hrun Hi Hlast. rewrite (csr_map_update_as_inserts d l m Hm) in Hrun.
  simplify_eq. by apply insert_pairs_last.
Qed.

Lemma csr_map_update_new_max d l d' (m : Z) :
  l ≠ [] → Dict.max (Dict.values d) = inr m → csr_map_update d l = inr d' →
  Dict.max (Dict.values d') = inr (m + Z.of_nat (length l)).
Proof.
  intros Hl Hm Hrun. apply dict_max_spec. split.
  - destruct (lookup_lt_is_Some_2 l (length l - 1)) as [n Hn].
    { destruct l; [done|]. simpl. lia. }
    apply values_elem. exists n.
    rewrite (csr_map_update_lookup_last d l d' m n (length l - 1) Hm Hrun Hn).
    + f_equal. destruct l; [done|]. simpl. lia.
    + intros j Hj. rewrite lookup_ge_None_2; [done|lia].
  - intros w [k Hk]%values_elem.
    destruct (csr_map_update_inr _ _ _ Hrun) as (m' & Hm' & Hout & Hin).
    assert (m' = m) as -> by congruence.
    destruct (decide (k ∈ l)) as [E|E].
    + destruct (Hin k E) as (i & Hi & Hv). apply lookup_lt_Some in Hi.
      rewrite Hk in Hv. simplify_eq. lia.
    + rewrite Hout in Hk by done.
      pose proof (csr_map_update_old_le d m k w Hm Hk). lia.
Qed.

Lemma csr_map_update_nil d : d ≠ ∅ → csr_map_update d [] = inr d.
Proof.
  intros Hd. destruct (max_total (Dict.values d)) as [m Hm]; [by rewrite values_nil|].
  by rewrite (csr_map_update_as_inserts d [] m Hm).
Qed.

Lemma csr_map_update_app d l1 l2 :
  csr_map_update d (l1 ++ l2)
  = match csr_map_update d l1 with
    | inl e => inl e
    | inr d1 => csr_map_update d1 l2
    end.
Proof.
  destruct (decide (d = ∅)) as [->|Hd]; [done|].
  destruct (max_total (Dict.values d)) as [m Hm]; [by rewrite values_nil|].
  destruct (decide (l1 = [])) as [->|Hl1].
  { by rewrite csr_map_update_nil. }
  destruct (csr_map_update d l1) as [e|d1] eqn:Hrun.
  { rewrite (csr_map_update_as_inserts d l1 m Hm) in Hrun. discriminate. }
  pose proof (csr_map_update_new_max d l1 d1 m Hl1 Hm Hrun) as Hm1.
  rewrite (csr_map_update_as_inserts d1 l2 _ Hm1).
  rewrite (csr_map_update_as_inserts d (l1 ++ l2) m Hm).
  rewrite (csr_map_update_as_inserts d l1 m Hm) in Hrun. simplify_eq.
  rewrite enumerate_app, List.map_app, insert_pairs_app.
  by replace (m + 1 + Z.of_nat (length l1)) with (m + Z.of_nat (length l1) + 1) by lia.
Qed.

End AllocatorLaws.

(** X2.  After a successful call the keys of the map are the keys it had
    together with the listed names: nothing is ever removed, and nothing
    but the listed names is added. *)
Theorem csr_map_update_keys (d d' : gmap string Z) (l : list string) :
  csr_map_update d l = inr d' → dom d' = dom d ∪ list_to_set l.
Proof.
  intros Hrun. destruct (csr_map_update_inr _ _ _ Hrun) as (m & _ & Hout & Hin).
  apply set_eq. intros k.
  rewrite elem_of_union, !elem_of_dom, elem_of_list_to_set.
  destruct (decide (k ∈ l)) as [E|E].
  - destruct (Hin k E) as (i & _ & ->). split; eauto.
  - rewrite (Hout k E). split; [eauto|]. by intros [?|?].
Qed.

Lemma csr_map_update_keys_witness :
  dom ({[ "uart" := 2; "crg" := 3; "dna" := 4 ]} : gmap string Z)
  = dom ({[ "uart" := 2 ]} : gmap string Z) ∪ list_to_set ["crg"; "dna"].
Proof.
  refine (csr_map_update_keys {[ "uart" := 2 ]} _ ["crg"; "dna"] _).
  vm_compute. reflexivity.
Defined.

(** X3.  After a successful call with a non-empty list, the largest ordinal
    of the map is the largest one it had plus the length of the list, also
    when the list repeats a name or names an entry the map already had. *)
Theorem csr_map_update_largest (d d' : gmap string Z) (l : list string) :
  l ≠ [] → csr_map_update d l = inr d' →
  ∃ m, Dict.max (Dict.values d) = inr m ∧
       Dict.max (Dict.values d') = inr (m + Z.of_nat (length l)).
Proof.
  intros Hl Hrun. destruct (csr_map_update_inr _ _ _ Hrun) as (m & Hm & _).
  exists m. split; [done|]. by eapply csr_map_update_new_max.
Qed.

Lemma csr_map_update_largest_witness :
  ∃ m, Dict.max (Dict.values {[ "uart" := 2; "crg" := 0 ]}) = inr m ∧
       Dict.max (Dict.values {[ "uart" := 2; "crg" := 5; "dna" := 4 ]}) = inr (m + 3).
Proof.
  refine (csr_map_update_largest {[ "uart" := 2; "crg" := 0 ]} _ ["crg"; "dna"; "crg"] _ _).
  - discriminate.
  - vm_compute. reflexivity.
Defined.

(** X4.  Successive calls compose: allocating [l1] and then [l2] is the same
    as allocating [l1 ++ l2] in one call, exception included; and allocating
    the empty list changes nothing, but still raises [ValueError] on an
    empty map. *)
Theorem csr_map_update_append (d : gmap string Z) (l1 l2 : list string) :
  csr_map_update d (l1 ++ l2)
  = match csr_map_update d l1 with
    | inl e => inl e
    | inr d1 => csr_map_update d1 l2
    end ∧
  csr_map_update d [] = if decide (d = ∅) then inl ValueError else inr d.
Proof.
  split; [apply csr_map_update_app|].
  case_decide as Hd; [by subst|]. by apply csr_map_update_nil.
Qed.

(** X5.  A name listed several times holds the ordinal of its last position
    in the list, and the ordinal of each earlier position is held by no name
    at all: repeated names leave gaps in the numbering. *)
Theorem csr_map_update_repeated_name (d d' : gmap string Z) (l : list string)
    (m : Z) (n : string) (i : nat) :
  csr_map_update d l = inr d' → Dict.max (Dict.values d) = inr m → l !! i = Some n →
  ((∀ j : nat, (i < j)%nat → l !! j ≠ Some n) → d' !! n = Some (m + 1 + Z.of_nat i)) ∧
  (∀ j : nat, (i < j)%nat → l !! j = Some n → ∀ k, d' !! k ≠ Some (m + 1 + Z.of_nat i)).
Proof.
  intros Hrun Hm Hi. split.
  - intros Hlast. by eapply csr_map_update_lookup_last.
  - intros j Hij Hj k Hk.
    destruct (csr_map_update_inr _ _ _ Hrun) as (m' & Hm' & Hout & _).
    assert (m' = m) as -> by congruence.
    destruct (decide (k ∈ l)) as [E|E].
    + destruct (last_position l k E) as (p & Hp & Hlast).
      rewrite (csr_map_update_lookup_last d l d' m k p Hm Hrun Hp Hlast) in Hk.
      assert (p = i) as -> by (simplify_eq; lia).
      assert (k = n) as -> by congruence. by apply (Hlast j).
    + rewrite Hout in Hk by done.
      pose proof (csr_map_update_old_le d m k _ Hm Hk). lia.
Qed.

Lemma csr_map_update_repeated_name_witness :
  ({[ "uart" := 2; "crg" := 5; "dna" := 4 ]} : gmap string Z) !! "crg" = Some (2 + 1 + Z.of_nat 2).
Proof.
  refine (proj1 (csr_map_update_repeated_name {[ "uart" := 2 ]} _ ["crg"; "dna"; "crg"]
                   2 "crg" 2 _ _ _) _).
  - vm_compute. reflexivity.
  - reflexivity.
  - reflexivity.
  - intros j Hj. rewrite lookup_ge_None_2; [done|simpl; lia].
Defined.

(** ** The class body on the store of dictionary objects *)

Section StoreFacts.

Import Store.
Implicit Types (h : store) (P : parent_attrs) (N : own_attrs) (o : nat).

Lemma content_insert_eq h o (d : gmap string Z) : content (<[o := d]> h) o = d.
Proof. unfold content. apply lookup_total_insert_eq. Qed.

Lemma content_insert_ne h o o' (d : gmap string Z) :
  o ≠ o' → content (<[o := d]> h) o' = content h o'.
Proof. intros Hne. unfold content. by apply lookup_total_insert_ne. Qed.

Lemma content_non_empty_dom h o : content h o ≠ ∅ → o ∈ dom h.
Proof.
  unfold content. rewrite lookup_total_alt, elem_of_dom.
  destruct (h !! o); [eauto|]. by intros [].
Qed.

(** What a successful run of the class body does to the store, when the
    parent's attributes name objects of the store. *)
Lemma class_body_inr_store P h N h' :
  interrupt_map_obj P ∈ dom h → mem_map_obj P ∈ dom h →
  class_body P h = inr (N, h') →
  ∃ d', csr_map_update (content h (csr_map_obj P)) csr_peripherals = inr d' ∧
    csr_map_obj P ∈ dom h ∧
    (own_interrupt_map N ∉ dom h) ∧ (own_mem_map N ∉ dom h) ∧
    own_interrupt_map N ≠ own_mem_map N ∧
    h' = <[own_mem_map N :=
            Dict.update {[ "ethmac" := 0x30000000 ]}
              (content (<[csr_map_obj P := d']> h) (mem_map_obj P))]>
         (<[own_interrupt_map N :=
             Dict.update {[ "ethmac" := 3 ]}
               (content (<[csr_map_obj P := d']> h) (interrupt_map_obj P))]>
          (<[csr_map_obj P := d']> h)).
Proof.
  intros Hirq Hmem. unfold class_body, csr_map_update_in_place.
  destruct (csr_map_update (content h (csr_map_obj P)) csr_peripherals) as [e|d'] eqn:Hrun;
    [done|].
  assert (csr_map_obj P ∈ dom h) as Hcsr.
  { apply content_non_empty_dom. intros Hempty. rewrite Hempty in Hrun. done. }
  unfold new_dict, update_in_place.
  remember (<[csr_map_obj P := d']> h) as h1 eqn:Hh1.
  assert (dom h1 = dom h) as Hd1.
  { rewrite Hh1, dom_insert_L. apply subseteq_union_1_L. by apply singleton_subseteq_l. }
  pose proof (is_fresh (dom h1)) as Hoi.
  remember (fresh (dom h1)) as oi eqn:Hoi_eq. clear Hoi_eq. rewrite Hd1 in Hoi.
  rewrite content_insert_eq.
  assert (oi ≠ interrupt_map_obj P) as Hoi_irq by (intros Heq; apply Hoi; by rewrite Heq).
  assert (oi ≠ mem_map_obj P) as Hoi_mem by (intros Heq; apply Hoi; by rewrite Heq).
  rewrite (content_insert_ne h1 oi (interrupt_map_obj P)) by done.
  rewrite insert_insert_eq.
  remember (<[oi := Dict.update {[ "ethmac" := 3 ]} (content h1 (interrupt_map_obj P))]> h1)
    as h3 eqn:Hh3.
  assert (dom h3 = {[oi]} ∪ dom h) as Hd3 by (by rewrite Hh3, dom_insert_L, Hd1).
  pose proof (is_fresh (dom h3)) as Hom.
  remember (fresh (dom h3)) as om eqn:Hom_eq. clear Hom_eq. rewrite Hd3 in Hom.
  apply not_elem_of_union in Hom as [Hom_oi Hom_h].
  apply not_elem_of_singleton in Hom_oi.
  rewrite content_insert_eq.
  assert (om ≠ mem_map_obj P) as Hom_mem by (intros Heq; apply Hom_h; by rewrite Heq).
  rewrite (content_insert_ne h3 om (mem_map_obj P)) by done.
  rewrite insert_insert_eq.
  rewrite Hh3 at 1. rewrite (content_insert_ne h1 oi (mem_map_obj P)) by done.
  intros [= <- <-]. simpl. exists d'. subst h3 h1.
  repeat split; first [done | by apply not_eq_sym].
Qed.

Lemma class_body_store_total P h :
  content h (csr_map_obj P) ≠ ∅ → ∃ N h', class_body P h = inr (N, h').
Proof.
  intros Hne. unfold class_body, csr_map_update_in_place.
  destruct (csr_map_update_total _ csr_peripherals Hne) as [d' ->].
  unfold new_dict. eauto.
Qed.

(** Running the class body on the store, against the class body on the
    contents. *)
Lemma class_body_store_pure P h :
  interrupt_map_obj P ∈ dom h → mem_map_obj P ∈ dom h →
  csr_map_obj P ≠ interrupt_map_obj P → csr_map_obj P ≠ mem_map_obj P →
  match NeTV2SoC_class_body (content h (csr_map_obj P))
          (content h (interrupt_map_obj P)) (content h (mem_map_obj P)) with
  | inl e => class_body P h = inl e
  | inr cm =>
      ∃ N h', class_body P h = inr (N, h') ∧
        content h' (csr_map_obj P) = csr_map cm ∧
        content h' (own_interrupt_map N) = interrupt_map cm ∧
        content h' (own_mem_map N) = mem_map cm
  end.
Proof.
  intros Hirq Hmem Hci Hcm.
  destruct (class_body P h) as [e|[N h']] eqn:Hbody.
  - unfold class_body, csr_map_update_in_place in Hbody. unfold NeTV2SoC_class_body.
    destruct (csr_map_update (content h (csr_map_obj P)) csr_peripherals) as [e'|d'];
      [congruence|].
    unfold new_dict in Hbody. discriminate.
  - destruct (class_body_inr_store P h N h' Hirq Hmem Hbody)
      as (d' & Hrun & Hcsr & Hni & Hnm & Hne & ->).
    unfold NeTV2SoC_class_body. rewrite Hrun.
    exists N, (<[own_mem_map N :=
            Dict.update {[ "ethmac" := 0x30000000 ]}
              (content (<[csr_map_obj P := d']> h) (mem_map_obj P))]>
         (<[own_interrupt_map N :=
             Dict.update {[ "ethmac" := 3 ]}
               (content (<[csr_map_obj P := d']> h) (interrupt_map_obj P))]>
          (<[csr_map_obj P := d']> h))).
    split; [done|]. simpl.
    assert (own_interrupt_map N ≠ csr_map_obj P) as H1 by (intros Heq; apply Hni; by rewrite Heq).
    assert (own_mem_map N ≠ csr_map_obj P) as H2 by (intros Heq; apply Hnm; by rewrite Heq).
    assert (own_mem_map N ≠ own_interrupt_map N) as H3 by (by apply not_eq_sym).
    split; [|split].
    + rewrite (content_insert_ne _ (own_mem_map N)) by done.
      rewrite (content_insert_ne _ (own_interrupt_map N)) by done.
      apply content_insert_eq.
    + rewrite (content_insert_ne _ (own_mem_map N)) by done.
      rewrite content_insert_eq. by rewrite content_insert_ne.
    + rewrite content_insert_eq. by rewrite content_insert_ne.
Qed.

End StoreFacts.

(** X6.  The class body run on the store agrees with the class body on the
    contents: when the three attributes of the parent class name objects of
    the store and [csr_map] is an object of its own, the body raises exactly
    when the body on the contents does, and otherwise the dictionaries that
    [NeTV2SoC.csr_map], [NeTV2SoC.interrupt_map] and [NeTV2SoC.mem_map] then
    evaluate to hold the three maps computed on the contents. *)
Theorem class_body_in_place_agrees (P : Store.parent_attrs) (h : Store.store) :
  Store.interrupt_map_obj P ∈ dom h → Store.mem_map_obj P ∈ dom h →
  Store.csr_map_obj P ≠ Store.interrupt_map_obj P →
  Store.csr_map_obj P ≠ Store.mem_map_obj P →
  match NeTV2SoC_class_body (Store.content h (Store.csr_map_obj P))
          (Store.content h (Store.interrupt_map_obj P))
          (Store.content h (Store.mem_map_obj P)) with
  | inl e => Store.class_body P h = inl e
  | inr cm =>
      ∃ N h', Store.class_body P h = inr (N, h') ∧
        Store.content h' (Store.csr_map_obj P) = csr_map cm ∧
        Store.content h' (Store.own_interrupt_map N) = interrupt_map cm ∧
        Store.content h' (Store.own_mem_map N) = mem_map cm
  end.
Proof. apply class_body_store_pure. Qed.

Lemma class_body_in_place_agrees_witness :
  match NeTV2SoC_class_body
          (Store.content Store.sample_store (Store.csr_map_obj Store.sample_parent))
          (Store.content Store.sample_store (Store.interrupt_map_obj Store.sample_parent))
          (Store.content Store.sample_store (Store.mem_map_obj Store.sample_parent)) with
  | inl e => Store.class_body Store.sample_parent Store.sample_store = inl e
  | inr cm =>
      ∃ N h', Store.class_body Store.sample_parent Store.sample_store = inr (N, h') ∧
        Store.content h' (Store.csr_map_obj Store.sample_parent) = csr_map cm ∧
        Store.content h' (Store.own_interrupt_map N) = interrupt_map cm ∧
        Store.content h' (Store.own_mem_map N) = mem_map cm
  end.
Proof.
  apply (class_body_in_place_agrees Store.sample_parent Store.sample_store);
    apply (bool_decide_unpack _); vm_compute; reflexivity.
Defined.

(** X7.  A successful class body changes the parent class's own [csr_map]
    dictionary: afterwards that object holds the extended map, with an
    ordinal for every name of the peripheral list.  Every other dictionary
    that existed before keeps its content, the parent's [interrupt_map] and
    [mem_map] included when they are objects other than [csr_map], and the
    two dictionaries the body binds are new objects, distinct from each
    other. *)
Theorem class_body_changes_parent_csr_map (P : Store.parent_attrs) (h h' : Store.store)
    (N : Store.own_attrs) :
  Store.interrupt_map_obj P ∈ dom h → Store.mem_map_obj P ∈ dom h →
  Store.class_body P h = inr (N, h') →
  csr_map_update (Store.content h (Store.csr_map_obj P)) csr_peripherals
  = inr (Store.content h' (Store.csr_map_obj P)) ∧
  (∀ n, n ∈ csr_peripherals → is_Some (Store.content h' (Store.csr_map_obj P) !! n)) ∧
  (∀ o, o ∈ dom h → o ≠ Store.csr_map_obj P → Store.content h' o = Store.content h o) ∧
  (Store.own_interrupt_map N ∉ dom h) ∧ (Store.own_mem_map N ∉ dom h) ∧
  Store.own_interrupt_map N ≠ Store.own_mem_map N.
Proof.
  intros Hirq Hmem Hbody.
  destruct (class_body_inr_store P h N h' Hirq Hmem Hbody)
    as (d' & Hrun & Hcsr & Hni & Hnm & Hne & ->).
  assert (Store.own_interrupt_map N ≠ Store.csr_map_obj P) as H1
    by (intros Heq; apply Hni; by rewrite Heq).
  assert (Store.own_mem_map N ≠ Store.csr_map_obj P) as H2
    by (intros Heq; apply Hnm; by rewrite Heq).
  assert (Store.content
            (<[Store.own_mem_map N :=
                Dict.update {[ "ethmac" := 0x30000000 ]}
                  (Store.content (<[Store.csr_map_obj P := d']> h) (Store.mem_map_obj P))]>
             (<[Store.own_interrupt_map N :=
                 Dict.update {[ "ethmac" := 3 ]}
                   (Store.content (<[Store.csr_map_obj P := d']> h)
                      (Store.interrupt_map_obj P))]>
              (<[Store.csr_map_obj P := d']> h))) (Store.csr_map_obj P) = d') as Hc.
  { rewrite (content_insert_ne _ (Store.own_mem_map N)) by done.
    rewrite (content_insert_ne _ (Store.own_interrupt_map N)) by done.
    apply content_insert_eq. }
  rewrite Hc. split; [done|]. split; [|split; [|done]].
  - intros n Hn. destruct (csr_map_update_inr _ _ _ Hrun) as (m & _ & _ & Hin).
    destruct (Hin n Hn) as (i & _ & ->). eauto.
  - intros o Ho Hoc.
    assert (Store.own_mem_map N ≠ o) by (intros Heq; apply Hnm; by rewrite Heq).
    assert (Store.own_interrupt_map N ≠ o) by (intros Heq; apply Hni; by rewrite Heq).
    rewrite !content_insert_ne by done. done.
Qed.

Lemma class_body_changes_parent_csr_map_witness :
  ∃ N h', Store.class_body Store.sample_parent Store.sample_store = inr (N, h') ∧
    is_Some (Store.content h' (Store.csr_map_obj Store.sample_parent) !! "ethmac") ∧
    Store.content h' 1 = Store.content Store.sample_store 1.
Proof.
  destruct (class_body_store_total Store.sample_parent Store.sample_store)
    as (N & h' & Hbody).
  { intros Hempty. apply (f_equal (lookup "uart")) in Hempty.
    vm_compute in Hempty. discriminate. }
  exists N, h'. split; [done|].
  assert (Store.interrupt_map_obj Store.sample_parent ∈ dom Store.sample_store) as H1
    by (apply (bool_decide_unpack _); vm_compute; reflexivity).
  assert (Store.mem_map_obj Store.sample_parent ∈ dom Store.sample_store) as H2
    by (apply (bool_decide_unpack _); vm_compute; reflexivity).
  destruct (class_body_changes_parent_csr_map _ _ h' N H1 H2 Hbody)
    as (_ & Hin & Hframe & _).
  split.
  - apply (Hin "ethmac"). unfold csr_peripherals.
    repeat (first [apply list_elem_of_here | apply list_elem_of_further]).
  - apply Hframe; apply (bool_decide_unpack _); vm_compute; reflexivity.
Defined.

(** ** Reading the log of the constructor *)

Section TraceLogic.

Import Trace.
Implicit Types (P : call → Prop) (c : call) (cs : list call).

Lemma do_logged c (s : list call) : do c s = (inr (), (s ++ [c])%list).
Proof. reflexivity. Qed.

(** *** Every logged call satisfies [P] *)

Lemma only_ret P {A} (x : A) : only P (mret x).
Proof. by intros s Hs. Qed.

Lemma only_raise P {A} (e : exn) : only P (raise (A := A) e).
Proof. by intros s Hs. Qed.

Lemma only_do P c : P c → only P (do c).
Proof. intros Hc s Hs. simpl. apply Forall_app. split; [done|]. by constructor. Qed.

Lemma only_bind P {A B} (m : M (list call) A) (f : A → M (list call) B) :
  only P m → (∀ x, only P (f x)) → only P (m ≫= f).
Proof.
  intros Hm Hf s Hs. specialize (Hm s Hs). unfold mbind, M_bind.
  destruct (m s) as [[e|x] s']; [done|]. by apply Hf.
Qed.

Lemma only_when P (b : bool) (m : M (list call) unit) :
  (b = true → only P m) → only P (when b m).
Proof. destruct b; simpl; [auto|]. intros _. apply only_ret. Qed.

Lemma only_for_each P {A} (l : list A) (f : A → M (list call) unit) :
  (∀ x, only P (f x)) → only P (for_each l f).
Proof.
  intros Hf. induction l as [|x l IH]; simpl; [apply only_ret|].
  apply only_bind; [apply Hf|]. by intros _.
Qed.

Lemma only_global P g n : only P (global g n).
Proof. unfold global. destruct (g n); [apply only_ret|apply only_raise]. Qed.

Lemma only_mem_map_get P (mm : gmap string Z) k : only P (mem_map_get mm k).
Proof. unfold mem_map_get. destruct (mm !! k); [apply only_ret|apply only_raise]. Qed.

Lemma only_py_and P (a : bool) (b : M (list call) bool) :
  only P b → only P (py_and a b).
Proof. destruct a; simpl; [done|]. intros _. apply only_ret. Qed.

Lemma only_assert P (b : bool) : only P (assert b).
Proof. destruct b; [apply only_ret|apply only_raise]. Qed.

(** *** The log only grows *)

Lemma extends_ret {A} (x : A) : extends (mret x).
Proof. intros s. exists []. simpl. by rewrite app_nil_r. Qed.

Lemma extends_raise {A} (e : exn) : extends (raise (A := A) e).
Proof. intros s. exists []. simpl. by rewrite app_nil_r. Qed.

Lemma extends_do c : extends (do c).
Proof. intros s. by exists [c]. Qed.

Lemma extends_bind {A B} (m : M (list call) A) (f : A → M (list call) B) :
  extends m → (∀ x, extends (f x)) → extends (m ≫= f).
Proof.
  intros Hm Hf s. destruct (Hm s) as [t Ht]. unfold mbind, M_bind.
  destruct (m s) as [[e|x] s']; simpl in *; subst; [by exists t|].
  destruct (Hf x (s ++ t)%list) as [t' Ht']. exists (t ++ t')%list.
  by rewrite Ht', (assoc_L (++)).
Qed.

Lemma extends_when (b : bool) (m : M (list call) unit) : extends m → extends (when b m).
Proof. destruct b; simpl; [done|]. intros _. apply extends_ret. Qed.

Lemma extends_for_each {A} (l : list A) (f : A → M (list call) unit) :
  (∀ x, extends (f x)) → extends (for_each l f).
Proof.
  intros Hf. induction l as [|x l IH]; simpl; [apply extends_ret|].
  apply extends_bind; [apply Hf|]. by intros _.
Qed.

Lemma extends_global g n : extends (global g n).
Proof. unfold global. destruct (g n); [apply extends_ret|apply extends_raise]. Qed.

Lemma extends_mem_map_get (mm : gmap string Z) k : extends (mem_map_get mm k).
Proof. unfold mem_map_get. destruct (mm !! k); [apply extends_ret|apply extends_raise]. Qed.

Lemma extends_py_and (a : bool) (b : M (list call) bool) : extends b → extends (py_and a b).
Proof. destruct a; simpl; [done|]. intros _. apply extends_ret. Qed.

Lemma extends_assert (b : bool) : extends (assert b).
Proof. destruct b; [apply extends_ret|apply extends_raise]. Qed.

(** *** The computation returns *)

Lemma returns_ret {A} (x : A) : returns (mret x).
Proof. intros s. exists x, []. simpl. by rewrite app_nil_r. Qed.

Lemma returns_do c : returns (do c).
Proof. intros s. by exists (), [c]. Qed.

Lemma returns_bind {A B} (m : M (list call) A) (f : A → M (list call) B) :
  returns m → (∀ x, returns (f x)) → returns (m ≫= f).
Proof.
  intros Hm Hf s. destruct (Hm s) as (x & t & Hx). unfold mbind, M_bind. rewrite Hx.
  destruct (Hf x (s ++ t)%list) as (y & t' & Hy). exists y, (t ++ t')%list.
  by rewrite Hy, (assoc_L (++)).
Qed.

Lemma returns_when (b : bool) (m : M (list call) unit) : returns m → returns (when b m).
Proof. destruct b; simpl; [done|]. intros _. apply returns_ret. Qed.

Lemma returns_for_each {A} (l : list A) (f : A → M (list call) unit) :
  (∀ x, returns (f x)) → returns (for_each l f).
Proof.
  intros Hf. induction l as [|x l IH]; simpl; [apply returns_ret|].
  apply returns_bind; [apply Hf|]. by intros _.
Qed.

Lemma returns_mem_map_get (mm : gmap string Z) k :
  is_Some (mm !! k) → returns (mem_map_get mm k).
Proof. intros [v Hv]. unfold mem_map_get. rewrite Hv. apply returns_ret. Qed.

(** *** The calls [cs] are logged, in this order *)

Lemma performs_nil {A} (m : M (list call) A) : extends m → performs [] m.
Proof. intros Hm s. destruct (Hm s) as [t Ht]. exists t. split; [done|]. apply sublist_nil_l. Qed.

Lemma performs_do_bind c cs {B} (f : unit → M (list call) B) :
  performs cs (f ()) → performs (c :: cs) (do c ≫= f).
Proof.
  intros Hf s. unfold mbind, M_bind. rewrite do_logged.
  destruct (Hf (s ++ [c])%list) as (t & Ht & Hsub). exists (c :: t).
  split; [by rewrite Ht, <- (assoc_L (++))|]. by constructor.
Qed.

Lemma performs_skip cs {A B} (m : M (list call) A) (f : A → M (list call) B) :
  returns m → (∀ x, performs cs (f x)) → performs cs (m ≫= f).
Proof.
  intros Hm Hf s. destruct (Hm s) as (x & t & Hx). unfold mbind, M_bind. rewrite Hx.
  destruct (Hf x (s ++ t)%list) as (t' & Ht' & Hsub). exists (t ++ t')%list.
  split; [by rewrite Ht', (assoc_L (++))|]. by apply sublist_inserts_l.
Qed.

Lemma performs_assoc cs {A B C} (m : M (list call) A) (g : A → M (list call) B)
    (f : B → M (list call) C) :
  performs cs (m ≫= λ x, g x ≫= f) → performs cs ((m ≫= g) ≫= f).
Proof.
  intros Hm s. destruct (Hm s) as (t & Ht & Hsub). exists t. split; [|done].
  rewrite <- Ht. unfold mbind, M_bind. by destruct (m s) as [[e|x] s'].
Qed.

Lemma performs_end cs {A} (m : M (list call) A) :
  performs cs (m ≫= mret) → performs cs m.
Proof.
  intros Hm s. destruct (Hm s) as (t & Ht & Hsub). exists t. split; [|done].
  rewrite <- Ht. unfold mbind, M_bind. by destruct (m s) as [[e|x] s'].
Qed.

End TraceLogic.

(** ** What the constructor logs *)

Ltac unfold_init :=
  unfold NeTV2SoC_init, NeTV2SoC_init_with, CRG_init, ethernet_block, etherbone_block,
    pcie_block_with, pcie_msi_loop, hdmi_in_block, hdmi_out_block;
  cbv zeta; cbn [for_each].

(** Walks a computation, leaving the logged calls to [leaf]. *)
Ltac only_tac leaf :=
  repeat first
    [ apply only_bind; [|intros ?]
    | apply only_when; intros ?
    | apply only_for_each; intros ?
    | apply only_py_and
    | apply only_global
    | apply only_mem_map_get
    | apply only_assert
    | apply only_ret
    | apply only_raise
    | apply only_do; leaf ].

Ltac extends_tac :=
  repeat first
    [ apply extends_bind; [|intros ?]
    | apply extends_when
    | apply extends_for_each; intros ?
    | apply extends_py_and
    | apply extends_global
    | apply extends_mem_map_get
    | apply extends_assert
    | apply extends_ret
    | apply extends_raise
    | apply extends_do ].

Ltac returns_tac :=
  repeat first
    [ apply returns_bind; [|intros ?]
    | apply returns_when
    | apply returns_for_each; intros ?
    | apply returns_mem_map_get; assumption
    | apply returns_ret
    | apply returns_do ].

Section InitLog.

Import Trace.
Implicit Types (g : string → option bool) (mm : gmap string Z) (a : args).

Lemma land_lor_same (x y : Z) : Z.land (Z.lor x y) y = y.
Proof.
  apply Z.bits_inj'. intros n Hn. rewrite Z.land_spec, Z.lor_spec.
  by destruct (Z.testbit x n), (Z.testbit y n).
Qed.

Lemma init_only_crossings_from_sys g mm sb items a :
  only crossing_from_sys (NeTV2SoC_init_with g mm sb items a).
Proof.
  unfold_init.
  only_tac ltac:(first [exact I | split; [reflexivity | vm_compute; discriminate]]).
Qed.

Lemma init_only_region_ethmac g mm sb items a :
  only (region_is_ethmac sb) (NeTV2SoC_init_with g mm sb items a).
Proof.
  unfold_init.
  only_tac ltac:(first [exact I | split; [reflexivity|split; [reflexivity|apply land_lor_same]]]).
Qed.

Lemma init_no_region_without_ethernet g mm sb items a :
  with_ethernet a = false →
  only (λ c, is_memory_region c = false) (NeTV2SoC_init_with g mm sb items a).
Proof.
  intros Heth. unfold_init.
  only_tac ltac:(first [reflexivity | congruence]).
Qed.

End InitLog.

Section InitPerforms.

Import Trace.
Implicit Types (g : string → option bool) (mm : gmap string Z) (a : args).

Lemma performs_ret_bind cs {A B} (x : A) (f : A → M (list call) B) :
  performs cs (f x) → performs cs (mret x ≫= f).
Proof. done. Qed.

(** The assertion passes: the constructor goes on with its second
    statement. *)
Lemma init_assertion_passes cs g a (k : M (list call) unit) :
  with_pcie a = false ∨ g "with_interboard_communication" = Some false →
  performs cs k →
  performs cs
    (py_and (with_pcie a) (global g "with_interboard_communication") ≫= λ c,
     assert (negb c) ≫= λ _, k).
Proof.
  intros Hpass Hk. unfold py_and, global.
  destruct (with_pcie a); [destruct Hpass as [? | ->]; [done|]|]; by apply performs_ret_bind.
Qed.

End InitPerforms.

Ltac performs_tac :=
  repeat lazymatch goal with
  | |- Trace.performs [] _ => apply performs_nil; solve [extends_tac]
  | |- Trace.performs _ (mbind _ (mbind _ _)) => apply performs_assoc
  | |- Trace.performs _ (mbind _ (mret _)) => apply performs_ret_bind
  | |- Trace.performs _ (mbind _ (when true _)) => cbn [when]
  | |- Trace.performs (?c :: _) (mbind _ (do ?c)) => apply performs_do_bind
  | |- Trace.performs _ (mbind _ _) => apply performs_skip; [solve [returns_tac]|intros ?]
  end.

Section InitSequences.

Import Trace.
Implicit Types (g : string → option bool) (mm : gmap string Z) (a : args).

Lemma init_performs_eth_twice g mm sb items a :
  with_ethernet a = true → with_etherbone a = true →
  with_pcie a = false ∨ g "with_interboard_communication" = Some false →
  is_Some (mm !! "ethmac") →
  performs
    [ platform_request "eth_clocks" None; platform_request "eth" None;
      submodules_set "ethphy"; add_false_path_constraints "sys" "eth";
      platform_request "eth_clocks" None; platform_request "eth" None;
      submodules_set "ethphy"; add_false_path_constraints "sys" "eth" ]
    (NeTV2SoC_init_with g mm sb items a).
Proof.
  intros Heth Heb Hpass Hmm. unfold NeTV2SoC_init_with.
  apply init_assertion_passes; [done|].
  unfold_init. rewrite Heth, Heb. cbn [when].
  performs_tac.
Qed.

Lemma init_performs_get_port g mm sb items a :
  with_pcie a = false ∨ g "with_interboard_communication" = Some false →
  is_Some (mm !! "ethmac") →
  (with_hdmi_in0 a = true →
   performs [get_port "write"] (NeTV2SoC_init_with g mm sb items a)) ∧
  (with_hdmi_out0 a = true →
   performs [get_port "read"] (NeTV2SoC_init_with g mm sb items a)).
Proof.
  intros Hpass Hmm. split; intros Hhdmi; unfold NeTV2SoC_init_with;
    (apply init_assertion_passes; [done|]);
    unfold_init; rewrite Hhdmi; cbn [when]; performs_tac.
Qed.

Lemma init_never_registers_sdram g mm sb items a :
  with_sdram a = false →
  only (λ c, c ≠ register_sdram) (NeTV2SoC_init_with g mm sb items a).
Proof.
  intros Hsd. unfold_init.
  only_tac ltac:(first [discriminate | congruence]).
Qed.

Lemma init_as_written_no_pcie mm sb items a :
  only (λ c, pcie_effect c = false) (NeTV2SoC_init_with netv2_globals mm sb items a).
Proof.
  destruct (with_pcie a) eqn:Hpcie.
  - intros s Hs.
    by rewrite (init_with_pcie_unbound netv2_globals mm sb items a s Hpcie eq_refl).
  - unfold_init. rewrite Hpcie.
    only_tac ltac:(first [discriminate | vm_compute; reflexivity]).
Qed.

End InitSequences.

(** X8.  The "mvp" system is the default system: [NeTV2MVPSoC] passes
    [with_ethernet=False], which is the default already, so its constructor
    is the constructor of [NeTV2SoC] with the default arguments, and giving
    "mvp" on the command line changes nothing in what [main] does. *)
Theorem mvp_is_the_default {S : Type} {F : Framework S}
    (g : string → option bool) (mm : gmap string Z) (sb : Z) (argv : list string) :
  NeTV2MVPSoC_init g mm sb = NeTV2SoC_init g mm sb default_args ∧
  main g mm sb ("mvp" :: argv) = main g mm sb argv.
Proof.
  split; [reflexivity|]. unfold main.
  assert (bool_decide ("no-compile" ∈ "mvp" :: argv) = bool_decide ("no-compile" ∈ argv)) as ->.
  { apply bool_decide_ext. rewrite elem_of_cons. split; [|auto]. by intros [?|?]. }
  rewrite (bool_decide_eq_true_2 ("mvp" ∈ "mvp" :: argv)) by apply list_elem_of_here.
  by destruct (bool_decide ("mvp" ∈ argv)).
Qed.

(** X9.  Every false-path constraint the constructor declares, and so every
    one [main] declares, is between the system clock and another clock: it
    never declares a crossing between two peripheral clocks, and never one
    from the system clock to itself. *)
Theorem crossings_are_with_sys (g : string → option bool) (mm : gmap string Z) (sb : Z)
    (a : args) (argv : list string) :
  Trace.only crossing_from_sys (NeTV2SoC_init g mm sb a) ∧
  Trace.only crossing_from_sys (main g mm sb argv).
Proof.
  split; [apply init_only_crossings_from_sys|].
  unfold main, NeTV2MVPSoC_init, generate_software_header.
  apply only_bind; [by apply only_do|intros _].
  apply only_bind; [case_bool_decide; apply init_only_crossings_from_sys|intros _].
  apply only_bind; [by apply only_do|intros _].
  apply only_bind; [by apply only_do|intros _].
  intros s Hs. rewrite do_logged. simpl. apply Forall_app. split; [done|]. by constructor.
Qed.

(** X10.  The only memory region the constructor registers is "ethmac": it
    is 0x2000 long and its origin has every bit of [shadow_base] set,
    whatever address the memory map gives; and with [with_ethernet] false the
    constructor registers no memory region at all. *)
Theorem only_region_is_ethmac (g : string → option bool) (mm : gmap string Z) (sb : Z)
    (a : args) :
  Trace.only (region_is_ethmac sb) (NeTV2SoC_init g mm sb a) ∧
  (with_ethernet a = false →
   Trace.only (λ c, is_memory_region c = false) (NeTV2SoC_init g mm sb a)).
Proof.
  split; [apply init_only_region_ethmac|]. intros Heth.
  by apply init_no_region_without_ethernet.
Qed.

(** X11.  With [with_ethernet] and [with_etherbone] both true, once the
    assertion has passed and when every framework call succeeds, the
    constructor requests the pads "eth_clocks" and "eth" twice, registers the
    submodule name "ethphy" twice and declares the crossing (sys, eth) twice:
    nothing in the constructor keeps the two options apart. *)
Theorem ethernet_and_etherbone_both (g : string → option bool) (mm : gmap string Z)
    (sb : Z) (a : args) :
  with_ethernet a = true → with_etherbone a = true →
  with_pcie a = false ∨ g "with_interboard_communication" = Some false →
  is_Some (mm !! "ethmac") →
  Trace.performs
    [ platform_request "eth_clocks" None; platform_request "eth" None;
      submodules_set "ethphy"; add_false_path_constraints "sys" "eth";
      platform_request "eth_clocks" None; platform_request "eth" None;
      submodules_set "ethphy"; add_false_path_constraints "sys" "eth" ]
    (NeTV2SoC_init g mm sb a).
Proof. intros. by apply init_performs_eth_twice. Qed.

Lemma ethernet_and_etherbone_both_witness :
  ∃ t,
    (NeTV2SoC_init (F := Trace.framework) netv2_globals {[ "ethmac" := 0x30000000 ]} 0x80000000
       {| with_sdram := true; with_ethernet := true; with_etherbone := true;
          with_pcie := false; with_hdmi_in0 := true; with_hdmi_out0 := true |} []).2
    = ([] ++ t)%list ∧
    [ platform_request "eth_clocks" None; platform_request "eth" None;
      submodules_set "ethphy"; add_false_path_constraints "sys" "eth";
      platform_request "eth_clocks" None; platform_request "eth" None;
      submodules_set "ethphy"; add_false_path_constraints "sys" "eth" ] `sublist_of` t.
Proof.
  refine (ethernet_and_etherbone_both netv2_globals {[ "ethmac" := 0x30000000 ]} 0x80000000
            {| with_sdram := true; with_ethernet := true; with_etherbone := true;
               with_pcie := false; with_hdmi_in0 := true; with_hdmi_out0 := true |}
            _ _ _ _ []).
  - reflexivity.
  - reflexivity.
  - left. reflexivity.
  - exists 0x30000000. vm_compute. reflexivity.
Defined.

(** X12.  With [with_sdram] false the constructor never registers the SDRAM,
    yet, once the assertion has passed and when every framework call
    succeeds, it still asks the SDRAM crossbar for a write port when
    [with_hdmi_in0] is true and for a read port when [with_hdmi_out0] is
    true. *)
Theorem hdmi_asks_for_sdram_port (g : string → option bool) (mm : gmap string Z)
    (sb : Z) (a : args) :
  with_sdram a = false →
  with_pcie a = false ∨ g "with_interboard_communication" = Some false →
  is_Some (mm !! "ethmac") →
  Trace.only (λ c, c ≠ register_sdram) (NeTV2SoC_init g mm sb a) ∧
  (with_hdmi_in0 a = true → Trace.performs [get_port "write"] (NeTV2SoC_init g mm sb a)) ∧
  (with_hdmi_out0 a = true → Trace.performs [get_port "read"] (NeTV2SoC_init g mm sb a)).
Proof.
  intros Hsd Hpass Hmm. split; [by apply init_never_registers_sdram|].
  by apply init_performs_get_port.
Qed.

Lemma hdmi_asks_for_sdram_port_witness :
  ∃ t,
    (NeTV2SoC_init (F := Trace.framework) netv2_globals {[ "ethmac" := 0x30000000 ]} 0x80000000
       {| with_sdram := false; with_ethernet := false; with_etherbone := true;
          with_pcie := false; with_hdmi_in0 := true; with_hdmi_out0 := true |} []).2
    = ([] ++ t)%list ∧
    [get_port "write"] `sublist_of` t.
Proof.
  refine (proj1 (proj2 (hdmi_asks_for_sdram_port netv2_globals {[ "ethmac" := 0x30000000 ]}
            0x80000000
            {| with_sdram := false; with_ethernet := false; with_etherbone := true;
               with_pcie := false; with_hdmi_in0 := true; with_hdmi_out0 := true |}
            _ _ _)) _ []).
  - reflexivity.
  - left. reflexivity.
  - exists 0x30000000. vm_compute. reflexivity.
  - reflexivity.
Defined.

Lemma no_pcie_effect_no_constant (tr : list call) :
  Forall (λ c, pcie_effect c = false) tr → @constants (list call) Trace.framework tr = [].
Proof.
  induction 1 as [|c tr Hc _ IH]; [done|]. simpl in *.
  destruct c; simpl in *; try done.
Qed.

(** X13.  As the module is written, with none of the free names bound, the
    PCIe support is dead: for every combination of arguments the constructor
    registers none of the PCIe peripherals, wires no MSI line and defines no
    interrupt constant. *)
Theorem pcie_is_dead_as_written (mm : gmap string Z) (sb : Z) (a : args) :
  Trace.only (λ c, pcie_effect c = false)
    (NeTV2SoC_init (F := Trace.framework) netv2_globals mm sb a) ∧
  @constants (list call) Trace.framework
    (NeTV2SoC_init (F := Trace.framework) netv2_globals mm sb a []).2 = [].
Proof.
  assert (Trace.only (λ c, pcie_effect c = false)
            (NeTV2SoC_init (F := Trace.framework) netv2_globals mm sb a)) as Honly
    by apply init_as_written_no_pcie.
  split; [done|]. apply no_pcie_effect_no_constant. by apply Honly.
Qed.

(** ** The MSI interrupt table *)

Section MsiLoop.

Implicit Types (items : list (string * string)) (k v : string).

Local Existing Instance key_le_trans.

Lemma msi_for_each_logged (l : list (Z * (string * string))) (s : list call) :
  for_each (S := list call) l (λ ikv,
    do (msi_irq_eq ikv.1 ikv.2.2) ;;
    do (add_constant (ikv.2.1 ++ "_INTERRUPT") ikv.1)) s
  = (inr (), (s ++ flat_map msi_calls l)%list).
Proof.
  revert s. induction l as [|ikv l IH]; intros s; simpl.
  - by rewrite app_nil_r.
  - unfold mbind, M_bind. rewrite !do_logged, IH.
    by rewrite <- !(assoc_L (++)).
Qed.

Lemma pcie_msi_loop_logged items (s : list call) :
  pcie_msi_loop (F := Trace.framework) items s
  = (inr (), (s ++ flat_map msi_calls (Dict.enumerate (sorted items) 0))%list).
Proof. apply msi_for_each_logged. Qed.

Lemma sorted_keys_NoDup items : NoDup items.*1 → NoDup (sorted items).*1.
Proof. intros Hnd. by rewrite (sorted_Permutation items). Qed.

Lemma Sorted_lookup_lt {A} (R : relation A) `{!Transitive R} (l : list A) (i j : nat) x y :
  Sorted R l → l !! i = Some x → l !! j = Some y → (i < j)%nat → R x y.
Proof.
  intros Hs%Sorted_StronglySorted; [|done]. revert i j.
  induction Hs as [|z l Hl IH Hz]; intros i j Hi Hj Hij; [done|].
  destruct j as [|j]; [lia|]. simpl in Hj. destruct i as [|i]; simpl in Hi.
  - simplify_eq. rewrite Forall_forall in Hz. apply Hz. by eapply list_elem_of_lookup_2.
  - apply (IH i j); [done..|lia].
Qed.

Lemma sorted_strictly_increasing items (i j : nat) k v k' v' :
  NoDup items.*1 →
  sorted items !! i = Some (k, v) → sorted items !! j = Some (k', v') → (i < j)%nat →
  String.ltb k k' = true.
Proof.
  intros Hnd Hi Hj Hij.
  pose proof (Sorted_lookup_lt key_le (sorted items) i j _ _ (sorted_Sorted items) Hi Hj Hij)
    as Hle.
  unfold key_le, String.le in Hle. simpl in Hle.
  assert (k ≠ k') as Hne.
  { intros <-. pose proof (sorted_keys_NoDup items Hnd) as Hnd'.
    assert (i = j); [|lia].
    eapply NoDup_lookup; [exact Hnd'| |]; rewrite list_lookup_fmap.
    - by rewrite Hi.
    - by rewrite Hj. }
  unfold String.ltb, String.leb in *.
  destruct (String.compare k k') eqn:Hc; [|done|done].
  by apply String.compare_eq_iff in Hc.
Qed.

Lemma msi_calls_enumerate_elem (l : list (string * string)) (s0 : Z) (c : call) :
  c ∈ flat_map msi_calls (Dict.enumerate l s0) ↔
  ∃ (i : nat) k v, l !! i = Some (k, v) ∧
    (c = msi_irq_eq (s0 + Z.of_nat i) v ∨
     c = add_constant (k ++ "_INTERRUPT") (s0 + Z.of_nat i)).
Proof.
  rewrite list_elem_of_In, in_flat_map. setoid_rewrite <- list_elem_of_In. split.
  - intros ([i' [k v]] & [n Hn]%list_elem_of_lookup & Hc).
    rewrite enumerate_lookup in Hn. destruct (l !! n) as [[k0 v0]|] eqn:Hl; [|done].
    simpl in Hn. simplify_eq. exists n, k, v. split; [done|].
    unfold msi_calls in Hc. simpl in Hc.
    apply elem_of_cons in Hc as [->|Hc]; [by left|].
    apply elem_of_cons in Hc as [->|Hc]; [by right|]. by apply elem_of_nil in Hc.
  - intros (i & k & v & Hl & Hc). exists (s0 + Z.of_nat i, (k, v)). split.
    + apply list_elem_of_lookup. exists i. rewrite enumerate_lookup. by rewrite Hl.
    + unfold msi_calls. simpl. destruct Hc as [-> | ->].
      * apply list_elem_of_here.
      * apply list_elem_of_further, list_elem_of_here.
Qed.

End MsiLoop.

(** X14.  The MSI loop, for a dictionary of interrupts with any items: the
    interrupt at position [i] of the items sorted by name has its signal
    wired to MSI line [i] and its constant [<name>_INTERRUPT] defined as
    [i], so that wiring and constant always agree; the loop makes no other
    call; and positions follow the names in strictly increasing order, so
    that each interrupt has one index, below the number of interrupts. *)
Theorem msi_indices_follow_names (items : list (string * string)) :
  NoDup items.*1 →
  (∀ (i : nat) k v, sorted items !! i = Some (k, v) →
     msi_irq_eq (Z.of_nat i) v ∈ (pcie_msi_loop (F := Trace.framework) items []).2 ∧
     add_constant (k ++ "_INTERRUPT") (Z.of_nat i)
       ∈ (pcie_msi_loop (F := Trace.framework) items []).2) ∧
  (∀ c, c ∈ (pcie_msi_loop (F := Trace.framework) items []).2 →
     ∃ (i : nat) k v, sorted items !! i = Some (k, v) ∧ (i < length items)%nat ∧
       (c = msi_irq_eq (Z.of_nat i) v ∨ c = add_constant (k ++ "_INTERRUPT") (Z.of_nat i))) ∧
  (∀ (i j : nat) k v k' v',
     sorted items !! i = Some (k, v) → sorted items !! j = Some (k', v') →
     (i < j)%nat → String.ltb k k' = true) ∧
  sorted items ≡ₚ items.
Proof.
  intros Hnd. rewrite pcie_msi_loop_logged. simpl.
  split; [|split; [|split]].
  - intros i k v Hi. split; apply msi_calls_enumerate_elem; exists i, k, v; auto.
  - intros c (i & k & v & Hi & Hc)%msi_calls_enumerate_elem.
    exists i, k, v. split; [done|]. split; [|done].
    apply lookup_lt_Some in Hi. by rewrite (sorted_Permutation items) in Hi.
  - intros i j k v k' v'. by apply sorted_strictly_increasing.
  - apply sorted_Permutation.
Qed.

Lemma msi_indices_follow_names_witness :
  msi_irq_eq 0 "pcie_dma0.reader.irq"
    ∈ (pcie_msi_loop (F := Trace.framework)
         [ ("PCIE_DMA0_WRITER", "pcie_dma0.writer.irq");
           ("PCIE_DMA0_READER", "pcie_dma0.reader.irq") ] []).2 ∧
  add_constant ("PCIE_DMA0_READER" ++ "_INTERRUPT") 0
    ∈ (pcie_msi_loop (F := Trace.framework)
         [ ("PCIE_DMA0_WRITER", "pcie_dma0.writer.irq");
           ("PCIE_DMA0_READER", "pcie_dma0.reader.irq") ] []).2.
Proof.
  refine (proj1 (msi_indices_follow_names
                   [ ("PCIE_DMA0_WRITER", "pcie_dma0.writer.irq");
                     ("PCIE_DMA0_READER", "pcie_dma0.reader.irq") ] _)
            0%nat "PCIE_DMA0_READER" "pcie_dma0.reader.irq" _).
  - apply (bool_decide_unpack _). vm_compute. reflexivity.
  - reflexivity.
Defined.

(** X21.  The constructor does not depend on the order in which the
    dictionary [self.interrupts] yields its items: the MSI loop walks
    [sorted(self.interrupts.items())], so for two orders of the same items
    under distinct names the sorted lists are equal, the loop wires the same
    lines and defines the same constants with the same indices, and the
    constructor is the same computation, in every framework. *)
Theorem init_independent_of_items_order {S : Type} {F : Framework S}
    (g : string → option bool) (mm : gmap string Z) (sb : Z)
    (items items' : list (string * string)) (a : args) :
  NoDup items.*1 → items ≡ₚ items' →
  sorted items = sorted items' ∧
  pcie_msi_loop (S := S) items = pcie_msi_loop items' ∧
  NeTV2SoC_init_with g mm sb items a = NeTV2SoC_init_with g mm sb items' a.
Proof.
  intros Hnd Hperm.
  assert (sorted items = sorted items') as Hsorted by by apply sorted_order_independent.
  split; [done|]. split; [|by apply init_with_order_independent].
  unfold pcie_msi_loop. by rewrite Hsorted.
Qed.

Lemma init_independent_of_items_order_witness :
  sorted [ ("PCIE_DMA0_READER", "pcie_dma0.reader.irq");
           ("PCIE_DMA0_WRITER", "pcie_dma0.writer.irq") ]
  = sorted pcie_interrupts ∧
  NeTV2SoC_init_with (F := Trace.framework) netv2_globals (NeTV2SoC_mem_map ∅) 0x80000000
    [ ("PCIE_DMA0_READER", "pcie_dma0.reader.irq");
      ("PCIE_DMA0_WRITER", "pcie_dma0.writer.irq") ] default_args
  = NeTV2SoC_init (F := Trace.framework) netv2_globals (NeTV2SoC_mem_map ∅) 0x80000000
      default_args.
Proof.
  destruct (init_independent_of_items_order (F := Trace.framework) netv2_globals
              (NeTV2SoC_mem_map ∅) 0x80000000
              [ ("PCIE_DMA0_READER", "pcie_dma0.reader.irq");
                ("PCIE_DMA0_WRITER", "pcie_dma0.writer.irq") ] pcie_interrupts default_args)
    as (Hsorted & _ & Hinit).
  - apply (bool_decide_unpack _). vm_compute. reflexivity.
  - apply Permutation_swap.
  - split; [exact Hsorted|exact Hinit].
Defined.

(** ** The dependency script *)

Section ScriptFacts.

Import LitexSetup.
Implicit Types (dirs : string → bool) (w : list event).

Lemma keys_repos :
  keys repos
  = ["migen"; "litex"; "liteeth"; "litedram"; "litepcie"; "litevideo"; "litescope"].
Proof. reflexivity. Qed.

Lemma getitem_repos (name : string) :
  name ∈ keys repos → ∃ url need_recursive, getitem repos name = inr (url, need_recursive, true).
Proof.
  rewrite keys_repos. intros Hn.
  repeat (apply elem_of_cons in Hn as [->|Hn]; [by eexists _, _|]).
  by apply elem_of_nil in Hn.
Qed.

Lemma for_each_log_only {A} (P : event → Prop) (l : list A)
    (f : A → M (list event) unit) :
  (∀ x w, x ∈ l → Forall P w → Forall P (f x w).2) →
  ∀ w, Forall P w → Forall P (for_each l f w).2.
Proof.
  induction l as [|x l IH]; intros Hf w Hw; [done|]. simpl. unfold mbind, M_bind.
  pose proof (Hf x w (list_elem_of_here _ _) Hw) as Hx.
  destruct (f x w) as [[e|[]] w']; [done|]. apply IH; [|done].
  intros y w0 Hy. apply Hf. by apply list_elem_of_further.
Qed.

(** One round of the [install] loop in the logging system. *)
Lemma install_one_logged dirs cp name w :
  name ∈ keys repos →
  install_one (O := logging dirs) cp name w
  = if dirs (path_join cp name)
    then (inr (), (w ++ install_events cp name)%list)
    else (inl (FrameworkError "FileNotFoundError"),
          (w ++ [printed ("[installing " ++ name ++ "]...")])%list).
Proof.
  intros Hn. destruct (getitem_repos name Hn) as (url & rec & Hget).
  unfold install_one, lookup_repo, mbind, M_bind. rewrite Hget. simpl.
  unfold chdir, system, print, mbind, M_bind. simpl.
  destruct (dirs (path_join cp name)); [|done].
  unfold install_events. by rewrite <- !(assoc_L (++)).
Qed.

Lemma update_one_logged dirs cp name w :
  update_one (O := logging dirs) cp name w
  = if dirs (path_join cp name)
    then (inr (), (w ++ update_events cp name)%list)
    else (inl (FrameworkError "FileNotFoundError"),
          (w ++ [printed ("[updating " ++ name ++ "]...")])%list).
Proof.
  unfold update_one, chdir, system, print, mbind, M_bind. simpl.
  destruct (dirs (path_join cp name)); [|done].
  unfold update_events. by rewrite <- !(assoc_L (++)).
Qed.

(** A loop whose round either logs [events x] and goes on, or logs [last x]
    and raises, according to [ok x]: it stops at the first [x] that is not
    [ok]. *)
Lemma loop_until_failure {A} (ok : A → bool) (events last : A → list event) (e : exn)
    (body : A → M (list event) unit) (l : list A) :
  (∀ x w, x ∈ l →
     body x w = if ok x then (inr (), (w ++ events x)%list) else (inl e, (w ++ last x)%list)) →
  ∀ w,
    for_each l body w
    = match list_find (λ x, ok x = false) l with
      | None => (inr (), (w ++ flat_map events l)%list)
      | Some (k, x) => (inl e, (w ++ flat_map events (take k l) ++ last x)%list)
      end.
Proof.
  induction l as [|x l IH]; intros Hbody w; simpl.
  - by rewrite app_nil_r.
  - unfold mbind, M_bind. rewrite (Hbody x w) by apply list_elem_of_here.
    destruct (ok x) eqn:Hx; simpl.
    + rewrite IH by (intros y w0 Hy; apply Hbody; by apply list_elem_of_further).
      destruct (list_find (λ x0 : A, ok x0 = false) l) as [[k y]|]; simpl.
      * by rewrite <- !(assoc_L (++)).
      * by rewrite <- !(assoc_L (++)).
    + done.
Qed.

Lemma script_install_logged dirs cp a0 rest :
  script (O := logging dirs) cp (a0 :: "install" :: rest) []
  = match list_find (λ name, dirs (path_join cp name) = false) (keys repos) with
    | None => (inr finished, flat_map (install_events cp) (keys repos))
    | Some (k, name) =>
        (inl (FrameworkError "FileNotFoundError"),
         (flat_map (install_events cp) (take k (keys repos))
          ++ [printed ("[installing " ++ name ++ "]...")])%list)
    end.
Proof.
  unfold script. rewrite decide_False by discriminate. rewrite decide_True by done.
  unfold mbind, M_bind.
  rewrite (loop_until_failure (λ name, dirs (path_join cp name)) (install_events cp)
             (λ name, [printed ("[installing " ++ name ++ "]...")])
             (FrameworkError "FileNotFoundError")).
  - by destruct (list_find _ (keys repos)) as [[k name]|].
  - intros name w Hn. by apply install_one_logged.
Qed.

Lemma script_update_logged dirs cp a0 rest :
  script (O := logging dirs) cp (a0 :: "update" :: rest) []
  = match list_find (λ name, dirs (path_join cp name) = false) (keys repos) with
    | None => (inr finished, flat_map (update_events cp) (keys repos))
    | Some (k, name) =>
        (inl (FrameworkError "FileNotFoundError"),
         (flat_map (update_events cp) (take k (keys repos))
          ++ [printed ("[updating " ++ name ++ "]...")])%list)
    end.
Proof.
  unfold script. rewrite !decide_False by discriminate. rewrite decide_True by done.
  unfold mbind, M_bind.
  rewrite (loop_until_failure (λ name, dirs (path_join cp name)) (update_events cp)
             (λ name, [printed ("[updating " ++ name ++ "]...")])
             (FrameworkError "FileNotFoundError")).
  - by destruct (list_find _ (keys repos)) as [[k name]|].
  - intros name w Hn. by apply update_one_logged.
Qed.

Lemma script_init_logged dirs cp a0 rest :
  script (O := logging dirs) cp (a0 :: "init" :: rest) []
  = (inr finished,
     flat_map (λ r, [printed ("[cloning " ++ r.1 ++ "]..."); ran (clone_command r)]) repos).
Proof. reflexivity. Qed.

Lemma ran_in_shell_commands (cmd : string) :
  cmd ∈ map clone_command repos ∨ cmd = "python3 setup.py develop" ∨ cmd = "git pull" →
  cmd ∈ shell_commands.
Proof.
  unfold shell_commands. rewrite elem_of_app. intros [?|[->| ->]]; [by left|right..].
  - apply list_elem_of_here.
  - apply list_elem_of_further, list_elem_of_here.
Qed.

Lemma flat_map_Forall {A B} (P : B → Prop) (f : A → list B) (l : list A) :
  (∀ x, x ∈ l → Forall P (f x)) → Forall P (flat_map f l).
Proof.
  induction l as [|x l IH]; intros Hf; simpl; [constructor|].
  apply Forall_app. split; [apply Hf, list_elem_of_here|].
  apply IH. intros y Hy. by apply Hf, list_elem_of_further.
Qed.

Lemma install_events_within cp name :
  name ∈ keys repos → Forall (within_remit cp) (install_events cp name).
Proof.
  intros Hn. unfold install_events.
  apply Forall_cons. split; [exact I|].
  apply Forall_cons. split; [by exists name|].
  apply Forall_cons. split; [|constructor].
  apply ran_in_shell_commands. auto.
Qed.

Lemma update_events_within cp name :
  name ∈ keys repos → Forall (within_remit cp) (update_events cp name).
Proof.
  intros Hn. unfold update_events.
  apply Forall_cons. split; [exact I|].
  apply Forall_cons. split; [by exists name|].
  apply Forall_cons. split; [|constructor].
  apply ran_in_shell_commands. auto.
Qed.

Lemma script_within_remit dirs cp argv :
  Forall (within_remit cp) (script (O := logging dirs) cp argv []).2.
Proof.
  destruct argv as [|a0 [|command rest]]; [by repeat constructor..|].
  destruct (decide (command = "init")) as [->|Hinit].
  { rewrite script_init_logged. cbn [snd]. apply flat_map_Forall. intros r Hr.
    apply Forall_cons. split; [exact I|].
    apply Forall_cons. split; [|constructor].
    apply ran_in_shell_commands. left.
    apply list_elem_of_In, in_map. by apply list_elem_of_In. }
  destruct (decide (command = "install")) as [->|Hinstall].
  { rewrite script_install_logged.
    destruct (list_find _ (keys repos)) as [[k name]|]; cbn [snd].
    - apply Forall_app. split; [|by repeat constructor].
      apply flat_map_Forall. intros n Hn. apply install_events_within.
      by eapply subseteq_take.
    - apply flat_map_Forall. intros n Hn. by apply install_events_within. }
  destruct (decide (command = "update")) as [->|Hupdate].
  { rewrite script_update_logged.
    destruct (list_find _ (keys repos)) as [[k name]|]; cbn [snd].
    - apply Forall_app. split; [|by repeat constructor].
      apply flat_map_Forall. intros n Hn. apply update_events_within.
      by eapply subseteq_take.
    - apply flat_map_Forall. intros n Hn. by apply update_events_within. }
  unfold script. rewrite !decide_False by done. constructor.
Qed.

End ScriptFacts.

(** X15.  A command other than "init", "install" and "update" is ignored
    without a word: in any operating system the script prints nothing, runs
    nothing and ends normally.  The script looks at [sys.argv[1]] only: the
    program name and every argument after the command are ignored. *)
Theorem script_ignores_unknown_command {W : Type} {O : LitexSetup.OS W}
    (current_path a0 command : string) (rest : list string) (w : W) :
  command ≠ "init" → command ≠ "install" → command ≠ "update" →
  LitexSetup.script current_path (a0 :: command :: rest) w = (inr LitexSetup.finished, w) ∧
  (∀ a0' rest' c,
     LitexSetup.script current_path (a0 :: c :: rest)
     = LitexSetup.script current_path (a0' :: c :: rest')).
Proof.
  intros Hinit Hinstall Hupdate. split; [|done].
  unfold LitexSetup.script. by rewrite !decide_False by done.
Qed.

Lemma script_ignores_unknown_command_witness :
  LitexSetup.script (O := LitexSetup.logging (λ _, true)) "/home/user/netv2"
    ["litex_setup.py"; "instal"; "--user"] []
  = (inr LitexSetup.finished, []).
Proof.
  refine (proj1 (script_ignores_unknown_command (O := LitexSetup.logging (λ _, true))
                   "/home/user/netv2" "litex_setup.py" "instal" ["--user"] [] _ _ _));
    discriminate.
Defined.

(** X16.  Whatever the arguments, the directory the script lies in and the
    directories that exist, every shell command the script runs is one of
    its nine fixed commands (a clone per repository, the installation, the
    update), and the only directories it enters are those of its
    repositories below its own directory: nothing of the command line ever
    reaches the shell. *)
Theorem script_stays_within_remit (dirs : string → bool) (current_path : string)
    (argv : list string) :
  Forall (LitexSetup.within_remit current_path)
    (LitexSetup.script (O := LitexSetup.logging dirs) current_path argv []).2 ∧
  length LitexSetup.shell_commands = 9%nat.
Proof. split; [apply script_within_remit|reflexivity]. Qed.

(** X17.  "install" and "update" stop at the first repository whose
    directory cannot be entered: the repositories before it have been
    installed (updated) in the order of the table, its own message has been
    printed, and the exception of [os.chdir] ends the script, so that the
    repositories after it are left untouched.  When every directory can be
    entered, all seven are installed (updated) in order. *)
Theorem script_stops_at_missing_directory (dirs : string → bool)
    (current_path a0 : string) (rest : list string) :
  LitexSetup.script (O := LitexSetup.logging dirs) current_path (a0 :: "install" :: rest) []
  = match list_find (λ name, dirs (LitexSetup.path_join current_path name) = false)
            (LitexSetup.keys LitexSetup.repos) with
    | None =>
        (inr LitexSetup.finished,
         flat_map (LitexSetup.install_events current_path) (LitexSetup.keys LitexSetup.repos))
    | Some (k, name) =>
        (inl (FrameworkError "FileNotFoundError"),
         (flat_map (LitexSetup.install_events current_path)
            (take k (LitexSetup.keys LitexSetup.repos))
          ++ [LitexSetup.printed ("[installing " ++ name ++ "]...")])%list)
    end ∧
  LitexSetup.script (O := LitexSetup.logging dirs) current_path (a0 :: "update" :: rest) []
  = match list_find (λ name, dirs (LitexSetup.path_join current_path name) = false)
            (LitexSetup.keys LitexSetup.repos) with
    | None =>
        (inr LitexSetup.finished,
         flat_map (LitexSetup.update_events current_path) (LitexSetup.keys LitexSetup.repos))
    | Some (k, name) =>
        (inl (FrameworkError "FileNotFoundError"),
         (flat_map (LitexSetup.update_events current_path)
            (take k (LitexSetup.keys LitexSetup.repos))
          ++ [LitexSetup.printed ("[updating " ++ name ++ "]...")])%list)
    end.
Proof. split; [apply script_install_logged|apply script_update_logged]. Qed.

(** X18.  "init" never enters a directory, so it cannot fail on a missing
    one: whatever directories exist it ends normally, having printed one
    message and run one clone per repository, in the order of the table,
    with [--recursive] for the repositories the table marks so. *)
Theorem script_init_clones_all (dirs : string → bool) (current_path a0 : string)
    (rest : list string) :
  LitexSetup.script (O := LitexSetup.logging dirs) current_path (a0 :: "init" :: rest) []
  = (inr LitexSetup.finished,
     flat_map (λ r, [LitexSetup.printed ("[cloning " ++ r.1 ++ "]...");
                     LitexSetup.ran (LitexSetup.clone_command r)]) LitexSetup.repos) ∧
  Forall (λ e, match e with LitexSetup.entered _ => False | _ => True end)
    (LitexSetup.script (O := LitexSetup.logging dirs) current_path (a0 :: "init" :: rest) []).2.
Proof.
  split; [apply script_init_logged|]. rewrite script_init_logged. simpl.
  repeat constructor.
Qed.

(** ** Building and rendering; names with and without a register window *)

Section MainLog.

Import Trace.
Implicit Types (g : string → option bool) (mm : gmap string Z) (a : args).

Lemma init_only_no_build g mm sb items a :
  only (λ c, is_build_or_write c = false) (NeTV2SoC_init_with g mm sb items a).
Proof. unfold_init. only_tac ltac:(reflexivity). Qed.

Lemma main_run g mm sb argv :
  main g mm sb argv []
  = match (if bool_decide ("mvp" ∈ argv) then NeTV2MVPSoC_init g mm sb
           else NeTV2SoC_init g mm sb default_args) [construct "netv2.Platform"] with
    | (inl e, s1) => (inl e, s1)
    | (inr _, s1) =>
        (inr (),
         (s1 ++ [ construct "Builder";
                  Builder_build (negb (bool_decide ("no-compile" ∈ argv)));
                  write_to_file "software/pcie/kernel/csr.h"
                    (csr_header
                       (s1 ++ [ construct "Builder";
                                Builder_build (negb (bool_decide ("no-compile" ∈ argv))) ])) ])%list)
    end.
Proof.
  unfold main, generate_software_header, mbind, M_bind. rewrite do_logged. simpl.
  destruct ((if bool_decide ("mvp" ∈ argv) then NeTV2MVPSoC_init g mm sb
             else NeTV2SoC_init g mm sb default_args) [construct "netv2.Platform"])
    as [[e|[]] s1]; [done|].
  rewrite !do_logged. simpl. by rewrite <- !(assoc_L (++)).
Qed.

Lemma main_logged g mm sb argv :
  match (main g mm sb argv []).1 with
  | inl _ => Forall (λ c, is_build_or_write c = false) (main g mm sb argv []).2
  | inr _ =>
      ∃ s text,
        (main g mm sb argv []).2
        = (s ++ [ construct "Builder";
                  Builder_build (negb (bool_decide ("no-compile" ∈ argv)));
                  write_to_file "software/pcie/kernel/csr.h" text ])%list ∧
        Forall (λ c, is_build_or_write c = false) s
  end.
Proof.
  rewrite main_run.
  assert (only (λ c, is_build_or_write c = false)
            (if bool_decide ("mvp" ∈ argv) then NeTV2MVPSoC_init g mm sb
             else NeTV2SoC_init g mm sb default_args)) as Hbuild.
  { case_bool_decide; apply init_only_no_build. }
  specialize (Hbuild [construct "netv2.Platform"]).
  destruct ((if bool_decide ("mvp" ∈ argv) then NeTV2MVPSoC_init g mm sb
             else NeTV2SoC_init g mm sb default_args) [construct "netv2.Platform"])
    as [[e|[]] s1]; simpl in *.
  - apply Hbuild. by repeat constructor.
  - eexists s1, _. split; [done|]. apply Hbuild. by repeat constructor.
Qed.

Lemma init_never_registers_unlisted g mm sb items a :
  only (λ c, registers_one_of ["pcie_dma1"; "hdmi_in0_edid_mem"] c = false)
    (NeTV2SoC_init_with g mm sb items a).
Proof. unfold_init. only_tac ltac:(vm_compute; reflexivity). Qed.

Lemma init_performs_hdmi_in1 g mm sb items a :
  with_pcie a = false ∨ g "with_interboard_communication" = Some false →
  is_Some (mm !! "ethmac") → g "with_hdmi_in1" = Some true →
  performs [submodules_set ("hdmi_in1" ++ "_freq"); submodules_set "hdmi_in1"]
    (NeTV2SoC_init_with g mm sb items a).
Proof.
  intros Hpass Hmm Hin1. unfold NeTV2SoC_init_with.
  apply init_assertion_passes; [done|].
  unfold_init. unfold global. rewrite Hin1.
  performs_tac.
Qed.

End MainLog.

(** X19.  [main] builds and renders only after the system has been
    constructed: when the constructor raises, neither the build nor any
    writing of a file has taken place; when [main] returns, its last three
    calls are the creation of the builder, the build, with
    [compile_gateware] false exactly when "no-compile" is on the command
    line, and the writing of the one file [software/pcie/kernel/csr.h], and
    nothing was built or written before them. *)
Theorem main_builds_then_writes_header (g : string → option bool) (mm : gmap string Z)
    (sb : Z) (argv : list string) :
  match (main (F := Trace.framework) g mm sb argv []).1 with
  | inl _ =>
      Forall (λ c, is_build_or_write c = false)
        (main (F := Trace.framework) g mm sb argv []).2
  | inr _ =>
      ∃ s text,
        (main (F := Trace.framework) g mm sb argv []).2
        = (s ++ [ construct "Builder";
                  Builder_build (negb (bool_decide ("no-compile" ∈ argv)));
                  write_to_file "software/pcie/kernel/csr.h" text ])%list ∧
        Forall (λ c, is_build_or_write c = false) s
  end.
Proof. apply main_logged. Qed.

(** X20.  The peripheral list and the constructor do not match: the names
    "pcie_dma1" and "hdmi_in0_edid_mem" are in the list and so receive a
    register-window ordinal, but no configuration registers a submodule of
    either name; and when [with_hdmi_in1] is bound to true (the assertion
    having passed and every framework call succeeding) the constructor
    registers "hdmi_in1_freq" and "hdmi_in1", which the list does not
    name. *)
Theorem list_and_constructor_mismatch (g : string → option bool) (mm : gmap string Z)
    (sb : Z) (a : args) :
  with_pcie a = false ∨ g "with_interboard_communication" = Some false →
  is_Some (mm !! "ethmac") → g "with_hdmi_in1" = Some true →
  Trace.only (λ c, registers_one_of ["pcie_dma1"; "hdmi_in0_edid_mem"] c = false)
    (NeTV2SoC_init g mm sb a) ∧
  ("pcie_dma1" ∈ csr_peripherals ∧ "hdmi_in0_edid_mem" ∈ csr_peripherals) ∧
  Trace.performs [submodules_set "hdmi_in1_freq"; submodules_set "hdmi_in1"]
    (NeTV2SoC_init g mm sb a) ∧
  ("hdmi_in1_freq" ∉ csr_peripherals) ∧ ("hdmi_in1" ∉ csr_peripherals).
Proof.
  intros Hpass Hmm Hin1. split; [apply init_never_registers_unlisted|].
  split.
  { split; apply (bool_decide_unpack _); vm_compute; reflexivity. }
  split; [by apply init_performs_hdmi_in1|].
  split; apply (bool_decide_unpack _); vm_compute; reflexivity.
Qed.

Lemma list_and_constructor_mismatch_witness :
  ∃ t,
    (NeTV2SoC_init (F := Trace.framework)
       (λ name, if decide (name = "with_hdmi_in1") then Some true else None)
       {[ "ethmac" := 0x30000000 ]} 0x80000000 default_args []).2
    = ([] ++ t)%list ∧
    [submodules_set "hdmi_in1_freq"; submodules_set "hdmi_in1"] `sublist_of` t.
Proof.
  refine (proj1 (proj2 (proj2 (list_and_constructor_mismatch
            (λ name, if decide (name = "with_hdmi_in1") then Some true else None)
            {[ "ethmac" := 0x30000000 ]} 0x80000000 default_args _ _ _))) []).
  - left. reflexivity.
  - exists 0x30000000. vm_compute. reflexivity.
  - reflexivity.
Defined.
